(** * SEAC training orchestrator ([train.py]): model and properties

    The development embeds the three functions of [train.py]
    ([_squash_info], [evaluate], [main]) and states the properties of the
    rollout / update / logging / checkpoint loop over that embedding.

    Modelling conventions.
    - Python [int] is [Z]; Python dictionaries with string keys are
      [gmap string _]; Python sets of strings are [gset string].
    - Values stored in info dictionaries are booleans, numbers or
      one-dimensional numpy arrays ([pyval]).  Numbers are exact rationals:
      the rounding of IEEE doubles is not part of the model.
    - Every call that leaves [train.py] (environment, policy, storage,
      filesystem, logging, metrics sink) is recorded as an [Event] in a
      chronological trace; what the callee returns is looked up in an
      [Oracle], a family of functions of the trace so far.  Such a call is
      modelled as returning: an exception raised inside a collaborator, or
      by the tensor slice [reward[:, i]], is outside the model.
    - The [while] loop of [evaluate] is driven by fuel; running out of fuel
      is the outcome [Timeout]. *)

From Stdlib Require Import ZArith QArith Qreduction Lia.
From stdpp Require Import gmap strings list fin_maps fin_sets pretty.
From Stdlib Require Import Ascii.

(** ** Python values found in info dictionaries *)

Inductive pyval :=
  | PBool (b : bool)
  | PNum (q : Q)
  | PArray (l : list Q).

(** [np.array(v).sum()] *)
Definition np_sum (v : pyval) : Q :=
  match v with
  | PBool b => if b then 1%Q else 0%Q
  | PNum q => q
  | PArray l => foldr Qplus 0%Q l
  end.

(** [np.mean(l)]: the sum divided by the number of elements, kept in lowest
    terms so that equal means are equal terms. *)
Definition np_mean (l : list Q) : Q :=
  Qred (foldr Qplus 0%Q l / inject_Z (Z.of_nat (length l))).

(** The key under which the time-limit wrapper reports a truncation. *)
Definition TimeLimit_truncated : string := "TimeLimit.truncated".

(** ** Metrics aggregator *)

Module Metrics.

(** [[np.array(d[key]).sum() for d in info if key in d]] *)
Definition contributions (key : string) (info : list (gmap string pyval)) : list Q :=
  omap (λ d, np_sum <$> (d !! key)) info.

(** [_squash_info], lines 60-68. *)
Definition _squash_info (info : list (gmap string pyval)) : gmap string Q :=
  let info := filter (λ i, i ≠ ∅) info in
  let keys : gset string := ⋃ (dom <$> info) in
  let keys := keys ∖ {[ TimeLimit_truncated ]} in
  set_fold (λ key new_info,
              let mean := np_mean (contributions key info) in
              <[key := mean]> new_info)
           ∅ keys.

(** The spec's wording of the key set: the union of the keys of the dicts
    that are not empty, minus the reserved key. *)
Definition squash_keys (info : list (gmap string pyval)) : gset string :=
  ⋃ (dom <$> filter (λ i, i ≠ ∅) info) ∖ {[ TimeLimit_truncated ]}.

End Metrics.

(** ** Strings and paths *)

Definition startswith_slash (s : string) : bool :=
  match s with
  | String c _ => bool_decide (c = "/"%char)
  | EmptyString => false
  end.

Fixpoint endswith_slash (s : string) : bool :=
  match s with
  | EmptyString => false
  | String c EmptyString => bool_decide (c = "/"%char)
  | String _ s' => endswith_slash s'
  end.

(** [posixpath.join(a, b)] for two components. *)
Definition path_join (a b : string) : string :=
  if startswith_slash b then b
  else if bool_decide (a = "") || endswith_slash a then a +:+ b
  else a +:+ "/" +:+ b.

(** [f"u{j}"] and [f"agent{agent_id}"] *)
Definition u_name (j : Z) : string := "u" +:+ pretty j.
Definition agent_name (agent_id : nat) : string := "agent" +:+ pretty agent_id.

(** ** Configuration *)

(** The module-level [config] dictionary (lines 31-51). *)
Record Config := {
  num_env_steps : Q;
  eval_dir : string;
  loss_dir : string;
  save_dir : string;
  log_interval : Z;
  save_interval : option Z;
  eval_interval : option Z;
  episodes_per_eval : Z;
}.

(** The [algorithm] dictionary imported from [a2c]; only the entries that
    [train.py] reads. *)
Record Algorithm := {
  num_steps : Z;
  num_envs : Z;
  device : string;
}.

(** Exceptions the orchestrator itself can raise. *)
Inductive exn :=
  | KeyError (key : string)
  | ZeroDivisionError
  | ValueError
  | IndexError
  | RuntimeError.

(** [int(x)] on a number: truncation towards zero. *)
Definition py_int (x : Q) : Z := Z.quot (Qnum x) (Zpos (Qden x)).

(** Truth value of a Python object, as [if v] tests it.  A numpy array with
    more than one element has no truth value.  An empty array is false, as
    under NumPy 1.x; NumPy 2 raises [ValueError] for it instead. *)
Definition py_truth (v : pyval) : exn + bool :=
  match v with
  | PBool b => inr b
  | PNum q => inr (negb (Qeq_bool q 0))
  | PArray [] => inr false
  | PArray [q] => inr (negb (Qeq_bool q 0))
  | PArray _ => inl ValueError
  end.

(** [info.get("TimeLimit.truncated", False)] used as a condition. *)
Definition truncated (info : gmap string pyval) : exn + bool :=
  match info !! TimeLimit_truncated with
  | Some v => py_truth v
  | None => inr false
  end.

(** [[[0.0] if done_ else [1.0] for done_ in done]] *)
Definition mask_rows (done : list bool) : list (list Q) :=
  (λ done_ : bool, if done_ then [0%Q] else [1%Q]) <$> done.

(** [[[0.0] if info.get("TimeLimit.truncated", False) else [1.0]
      for info in infos]] *)
Fixpoint bad_mask_rows (infos : list (gmap string pyval)) : exn + list (list Q) :=
  match infos with
  | [] => inr []
  | info :: infos' =>
      match truncated info with
      | inl e => inl e
      | inr t =>
          match bad_mask_rows infos' with
          | inl e => inl e
          | inr rows => inr ((if t then [0%Q] else [1%Q]) :: rows)
          end
      end
  end.

(** [deque(maxlen=10).append(x)]: append on the right, then drop from the
    left while the bound is exceeded. *)
Definition deque_maxlen : nat := 10.

Definition deque_append (dq : list (gmap string pyval)) (x : gmap string pyval)
  : list (gmap string pyval) :=
  let dq' := dq ++ [x] in
  if decide (deque_maxlen < length dq')%nat then drop 1 dq' else dq'.

(** ** Calls to collaborators *)

Section Model.

Context {Tensor Space : Type}.

(** What [agent.model.act] returns. *)
Record ActOut := {
  act_value : Tensor;
  act_action : Tensor;
  act_log_prob : Tensor;
  act_hidden : Tensor;
}.

(** What [envs.step] returns: per-agent observations, the reward tensor
    (instances x agents), per-instance done flags and info dicts. *)
Record StepOut := {
  step_obs : list Tensor;
  step_reward : Tensor;
  step_done : list bool;
  step_infos : list (gmap string pyval);
}.

(** Arguments of [agent.model.act]: either the three slots of the agent's own
    storage at [step] (training), or tensors held by the caller
    (evaluation). *)
Inductive ActArgs :=
  | FromStorage (step : nat)
  | Given (obs hidden : Tensor) (masks : list (list Q)).

Record InsertArgs := {
  ins_obs : Tensor;
  ins_hidden : Tensor;
  ins_action : Tensor;
  ins_log_prob : Tensor;
  ins_value : Tensor;
  ins_reward : Tensor;
  ins_masks : list (list Q);
  ins_bad_masks : list (list Q);
}.

Inductive LogMsg :=
  | MsgUpdates (j total_num_steps fps : Z)
  | MsgTrainReward (n : nat) (mean : Q)
  | MsgEval (n : nat) (mean : Q).

(** One constructor per call site of [train.py] that leaves the module.
    Environments are named by a handle, agents and their storages by
    [agent_id]. *)
Inductive Event :=
  | CleanupLogDir (dir : string)
  | NewSummaryWriter (dir : string)
  | SetNumThreads (n : Z)
  | MakeVecEnvs (h : nat) (num_parallel : Z) (monitor_dir : option string)
  | NewA2C (agent_id : nat) (osp asp : Space)
  | EnvsReset (h : nat)
  | WandbWatch (agent_id : nat)
  | StorageSeedObs (agent_id : nat) (obs : Tensor)
  | StorageTo (agent_id : nat) (dev : string)
  | TimeTime
  | ModelAct (agent_id : nat) (args : ActArgs)
  | EnvsStep (h : nat) (actions : list Tensor)
  | StorageInsert (agent_id : nat) (args : InsertArgs)
  | ComputeReturns (agent_id : nat)
  | Update (agent_id : nat) (storages : list nat)
  | AddScalar (tag : string) (v : Tensor) (j : Z)
  | StorageAfterUpdate (agent_id : nat)
  | LoggingInfo (m : LogMsg)
  | WandbLog (metrics : gmap string Q)
  | Makedirs (path : string)
  | AgentSave (agent_id : nat) (path : string)
  | MakeArchive (base_name format root_dir base_dir : string)
  | Rmtree (path : string)
  | LogArtifact (path : string) (name : option string)
  | GlobGlob (pattern : string)
  | EnvsClose (h : nat).

(** What the collaborators answer.  Each answer is a function of the trace up
    to and including the call, so a collaborator may keep any hidden state. *)
Class Oracle := {
  format_dir : string → string;
  observation_space : list Event → list Space;
  action_space : list Event → list Space;
  envs_reset : list Event → list Tensor;
  model_act : list Event → ActOut;
  envs_step : list Event → StepOut;
  reward_column : Tensor → nat → Tensor;
  zeros_hidden : Z → nat → Tensor;
  agent_update : list Event → list (string * Tensor);
  time_time : list Event → Q;
  make_archive : list Event → string;
  glob_glob : list Event → list string;
}.

Context {oracle : Oracle}.

(** *** The trace monad *)

Inductive outcome (A : Type) :=
  | Ok (a : A) (tr : list Event)
  | Raise (e : exn) (tr : list Event)
  | Timeout (tr : list Event).
Global Arguments Ok {A} a tr.
Global Arguments Raise {A} e tr.
Global Arguments Timeout {A} tr.

(** The trace at the point where the computation stopped. *)
Definition trace_of {A} (o : outcome A) : list Event :=
  match o with
  | Ok _ tr => tr
  | Raise _ tr => tr
  | Timeout tr => tr
  end.

(** The value returned, or [d] when the computation did not return. *)
Definition value_or {A} (d : A) (o : outcome A) : A :=
  match o with
  | Ok a _ => a
  | _ => d
  end.

Definition M (A : Type) : Type := list Event → outcome A.

Definition ret {A} (a : A) : M A := λ tr, Ok a tr.

Definition bind {A B} (m : M A) (k : A → M B) : M B :=
  λ tr, match m tr with
        | Ok a tr' => k a tr'
        | Raise e tr' => Raise e tr'
        | Timeout tr' => Timeout tr'
        end.

Definition raise {A} (e : exn) : M A := λ tr, Raise e tr.
Definition timeout {A} : M A := λ tr, Timeout tr.

(** A call: the event is appended, then the answer is read off the trace. *)
Definition call {A} (e : Event) (answer : list Event → A) : M A :=
  λ tr, Ok (answer (tr ++ [e])) (tr ++ [e]).

(** A call whose result is not used. *)
Definition call_ (e : Event) : M unit := call e (λ _, tt).

(** Reading an attribute of a collaborator. *)
Definition read {A} (answer : list Event → A) : M A := λ tr, Ok (answer tr) tr.

Definition lift {A} (r : exn + A) : M A :=
  match r with
  | inl e => raise e
  | inr a => ret a
  end.

(** [l[i]] *)
Definition index {A} (l : list A) (i : nat) : M A :=
  match l !! i with
  | Some a => ret a
  | None => raise IndexError
  end.

End Model.

Global Arguments ActOut : clear implicits.
Global Arguments StepOut : clear implicits.
Global Arguments ActArgs : clear implicits.
Global Arguments InsertArgs : clear implicits.
Global Arguments Event : clear implicits.
Global Arguments Oracle : clear implicits.
Global Arguments outcome : clear implicits.
Global Arguments M : clear implicits.

Notation "'do' x <- m ; k" := (bind m (λ x, k))
  (at level 10, x name, m at level 100, k at level 200).
Notation "'exec' m ; k" := (bind m (λ _, k))
  (at level 10, m at level 100, k at level 200).

(** ** The program *)

Section Program.

Context {Tensor Space : Type} {oracle : Oracle Tensor Space}.
Variable config : Config.
Variable algorithm : Algorithm.

Abbreviation Mon := (M Tensor Space).
Local Open Scope Z_scope.

(** An [A2C] object, as far as the orchestrator sees it: its [agent_id] and
    the spaces it was built from.  Its model and its storage live with the
    collaborators and are named by [agent_id]. *)
Record Agent := A2C {
  agent_id : nat;
  agent_osp : Space;
  agent_asp : Space;
}.

(** [for x in l: body(x)] *)
Fixpoint for_each {A} (l : list A) (body : A → Mon unit) : Mon unit :=
  match l with
  | [] => ret tt
  | x :: l' => exec body x; for_each l' body
  end.

(** [[f(x) for x in l]] *)
Fixpoint collect {A B} (l : list A) (f : A → Mon B) : Mon (list B) :=
  match l with
  | [] => ret []
  | x :: l' => do y <- f x; do ys <- collect l' f; ret (y :: ys)
  end.

(** A [for] loop that updates local variables [s]. *)
Fixpoint fold_for {A S} (l : list A) (body : S → A → Mon S) (s : S) : Mon S :=
  match l with
  | [] => ret s
  | x :: l' => do s' <- body s x; fold_for l' body s'
  end.

(** [enumerate(l)] *)
Definition enumerate {A} (l : list A) : list (nat * A) :=
  imap (λ i x, (i, x)) l.

(** [a // b] and [a % b] on Python integers. *)
Definition floordiv (a b : Z) : Mon Z :=
  if decide (b = 0) then raise ZeroDivisionError else ret (a `div` b).
Definition pymod (a b : Z) : Mon Z :=
  if decide (b = 0) then raise ZeroDivisionError else ret (a `mod` b).

(** [m[key]] on a dictionary. *)
Definition getitem (m : gmap string Q) (key : string) : Mon Q :=
  match m !! key with
  | Some v => ret v
  | None => raise (KeyError key)
  end.

(** [make_vec_envs(..., num_parallel, ..., monitor_dir=...)]: the new
    environment is named by the position of its construction in the trace. *)
Definition make_vec_envs (num_parallel : Z) (monitor_dir : option string) : Mon nat :=
  λ tr, let h := length tr in
        Ok h (tr ++ [MakeVecEnvs h num_parallel monitor_dir]).

(** The four tuples obtained by unzipping the list of [act] results. *)
Record Unzipped := {
  n_value : list Tensor;
  n_action : list Tensor;
  n_action_log_prob : list Tensor;
  n_recurrent_hidden_states : list Tensor;
}.

(** Unpacking the unzipped results into four names fails on an empty list. *)
Definition unzip4 (outs : list (ActOut Tensor)) : Mon Unzipped :=
  match outs with
  | [] => raise ValueError
  | _ => ret {| n_value := act_value <$> outs;
                n_action := act_action <$> outs;
                n_action_log_prob := act_log_prob <$> outs;
                n_recurrent_hidden_states := act_hidden <$> outs |}
  end.

(** *** [evaluate], lines 70-132 *)

(** The variables the [while] loop assigns. *)
Record EvalState := {
  ev_obs : list Tensor;
  ev_hidden : list Tensor;
  ev_infos : list (gmap string pyval);
}.

(** The body of the [while] loop, lines 106-126.  [n_masks] is computed and
    not read again. *)
Definition evaluate_body (agents : list Agent) (eval_envs : nat)
    (masks : list (list Q)) (s : EvalState) : Mon EvalState :=
  do outs <- collect (zip agents (ev_hidden s)) (λ p,
               do obs <- index (ev_obs s) (agent_id p.1);
               call (ModelAct (agent_id p.1) (Given obs p.2 masks)) model_act);
  do un <- unzip4 outs;
  do r <- call (EnvsStep eval_envs (n_action un)) envs_step;
  let n_masks := mask_rows (step_done r) in
  ret {| ev_obs := step_obs r;
         ev_hidden := n_recurrent_hidden_states un;
         ev_infos := ev_infos s ++ filter (λ i, i ≠ ∅) (step_infos r) |}.

(** [len(all_infos) < episodes_per_eval] *)
Definition evaluate_guard (s : EvalState) : bool :=
  bool_decide (Z.of_nat (length (ev_infos s)) < episodes_per_eval config).

(** The [while] loop, lines 105-126. *)
Fixpoint evaluate_loop (fuel : nat) (agents : list Agent) (eval_envs : nat)
    (masks : list (list Q)) (s : EvalState) : Mon (list (gmap string pyval)) :=
  if evaluate_guard s then
    match fuel with
    | 0%nat => timeout
    | S fuel' =>
        do s' <- evaluate_body agents eval_envs masks s;
        evaluate_loop fuel' agents eval_envs masks s'
    end
  else ret (ev_infos s).


(** [torch.zeros(n, 1)]; a negative size is refused. *)
Definition zeros_column (n : Z) : Mon (list (list Q)) :=
  if decide (n < 0)%Z then raise RuntimeError
  else ret (replicate (Z.to_nat n) [0%Q]).

Definition evaluate (fuel : nat) (agents : list Agent) (monitor_dir : string)
  : Mon unit :=
  do eval_envs <- make_vec_envs (episodes_per_eval config) (Some monitor_dir);
  do n_obs <- call (EnvsReset eval_envs) envs_reset;
  do masks <- zeros_column (episodes_per_eval config);
  let hiddens :=
    (λ agent, zeros_hidden (episodes_per_eval config) (agent_id agent)) <$> agents in
  do all_infos <- evaluate_loop fuel agents eval_envs masks
                    {| ev_obs := n_obs; ev_hidden := hiddens; ev_infos := [] |};
  exec call_ (EnvsClose eval_envs);
  let info := Metrics._squash_info all_infos in
  do reward <- getitem info "episode_reward";
  call_ (LoggingInfo (MsgEval (length all_infos) reward)).

(** *** [main], lines 134-291 *)

(** Local variables that survive from one update to the next. *)
Record LoopState := {
  all_infos : list (gmap string pyval);
  environment_steps : Z;
}.

(** One environment step of the rollout, lines 198-237. *)
Definition rollout_step (agents : list Agent) (envs : nat)
    (infos_window : list (gmap string pyval)) (step : nat)
  : Mon (list (gmap string pyval)) :=
  do outs <- collect agents (λ agent,
               call (ModelAct (agent_id agent) (FromStorage step)) model_act);
  do un <- unzip4 outs;
  do r <- call (EnvsStep envs (n_action un)) envs_step;
  let masks := mask_rows (step_done r) in
  do bad_masks <- lift (bad_mask_rows (step_infos r));
  exec for_each (seq 0 (length agents)) (λ i,
         do agent <- index agents i;
         do obs_i <- index (step_obs r) i;
         do hidden_i <- index (n_recurrent_hidden_states un) i;
         do action_i <- index (n_action un) i;
         do log_prob_i <- index (n_action_log_prob un) i;
         do value_i <- index (n_value un) i;
         call_ (StorageInsert (agent_id agent)
                  {| ins_obs := obs_i;
                     ins_hidden := hidden_i;
                     ins_action := action_i;
                     ins_log_prob := log_prob_i;
                     ins_value := value_i;
                     ins_reward := reward_column (step_reward r) i;
                     ins_masks := masks;
                     ins_bad_masks := bad_masks |}));
  ret (foldl deque_append infos_window (filter (λ i, i ≠ ∅) (step_infos r))).

(** The rollout of one update, lines 197-237. *)
Definition rollout (agents : list Agent) (envs : nat)
    (infos_window : list (gmap string pyval)) : Mon (list (gmap string pyval)) :=
  fold_for (seq 0 (Z.to_nat (num_steps algorithm)))
           (rollout_step agents envs) infos_window.

(** [for agent in order: loss = agent.update([a.storage for a in agents]) ...],
    lines 243-248.  The source iterates over [agents] itself. *)
Definition update_loop (order agents : list Agent) (writer : bool) (j : Z)
  : Mon unit :=
  for_each order (λ agent,
    do loss <- call (Update (agent_id agent) (agent_id <$> agents)) agent_update;
    for_each loss (λ kv,
      if writer
      then call_ (AddScalar (agent_name (agent_id agent) +:+ "/" +:+ kv.1) kv.2 j)
      else ret tt)).

(** Lines 240-251. *)
Definition returns_and_updates (agents : list Agent) (writer : bool) (j : Z)
  : Mon unit :=
  exec for_each agents (λ agent, call_ (ComputeReturns (agent_id agent)));
  exec update_loop agents agents writer j;
  for_each agents (λ agent, call_ (StorageAfterUpdate (agent_id agent))).

(** The log point, lines 253-268. *)
Definition log_stage (start : Q) (j : Z) (st : LoopState) : Mon LoopState :=
  do r <- pymod j (log_interval config);
  if bool_decide (r = 0) && bool_decide (1 < length (all_infos st))%nat then
    let squashed := Metrics._squash_info (all_infos st) in
    let total_num_steps := ((j + 1) * num_envs algorithm * num_steps algorithm)%Z in
    do end_ <- call TimeTime time_time;
    do fps <- (if Qeq_bool (end_ - start) 0 then raise ZeroDivisionError
               else ret (py_int (inject_Z total_num_steps / (end_ - start))));
    exec call_ (LoggingInfo (MsgUpdates j total_num_steps fps));
    do reward <- getitem squashed "episode_reward";
    exec call_ (LoggingInfo (MsgTrainReward (length (all_infos st)) reward));
    let squashed :=
      <["environment_steps" := inject_Z (environment_steps st)]> squashed in
    exec call_ (WandbLog squashed);
    ret {| all_infos := []; environment_steps := environment_steps st |}
  else ret st.

(** [interval is not None and (j > 0 and j % interval == 0 or j == num_updates)],
    lines 270-271 and 282-283. *)
Definition cadence (interval : option Z) (j num_updates : Z) : Mon bool :=
  match interval with
  | None => ret false
  | Some n =>
      if bool_decide (0 < j)%Z then
        do r <- pymod j n;
        if bool_decide (r = 0) then ret true
        else ret (bool_decide (j = num_updates))
      else ret (bool_decide (j = num_updates))
  end.

(** The body of the checkpoint branch, lines 273-280. *)
Definition checkpoint (agents : list Agent) (save_dir : string) (j : Z)
  : Mon unit :=
  let cur_save_dir := path_join save_dir (u_name j) in
  exec for_each agents (λ agent,
         let save_at := path_join cur_save_dir (agent_name (agent_id agent)) in
         exec call_ (Makedirs save_at);
         call_ (AgentSave (agent_id agent) save_at));
  do archive_name <-
    call (MakeArchive cur_save_dir "xztar" save_dir (u_name j)) make_archive;
  exec call_ (Rmtree cur_save_dir);
  call_ (LogArtifact archive_name None).

Definition save_stage (agents : list Agent) (save_dir : string)
    (num_updates j : Z) : Mon unit :=
  do go <- cadence (save_interval config) j num_updates;
  if go then checkpoint agents save_dir j else ret tt.

(** The body of the evaluation branch, lines 285-290. *)
Definition run_evaluation (fuel : nat) (agents : list Agent) (eval_dir : string)
    (j : Z) : Mon unit :=
  exec evaluate fuel agents (path_join eval_dir (u_name j));
  do videos <- call (GlobGlob (path_join eval_dir (u_name j) +:+ "/*.mp4")) glob_glob;
  for_each (enumerate videos) (λ iv,
    call_ (LogArtifact iv.2
             (Some (u_name j +:+ "." +:+ pretty iv.1 +:+ ".mp4")))).

Definition eval_stage (fuel : nat) (agents : list Agent) (eval_dir : string)
    (num_updates j : Z) : Mon unit :=
  do go <- cadence (eval_interval config) j num_updates;
  if go then run_evaluation fuel agents eval_dir j else ret tt.

(** One iteration of the update loop, lines 196-290. *)
Definition update_cycle (fuel : nat) (agents : list Agent) (envs : nat)
    (writer : bool) (save_dir eval_dir : string) (start : Q) (num_updates : Z)
    (st : LoopState) (j : Z) : Mon LoopState :=
  let environment_steps :=
    (environment_steps st + num_steps algorithm * num_envs algorithm)%Z in
  do window <- rollout agents envs (all_infos st);
  exec returns_and_updates agents writer j;
  do st' <- log_stage start j {| all_infos := window;
                                 environment_steps := environment_steps |};
  exec save_stage agents save_dir num_updates j;
  exec eval_stage fuel agents eval_dir num_updates j;
  ret st'.

(** [for j in range(1, num_updates + 1)], lines 193-290. *)
Definition update_loop_all (fuel : nat) (agents : list Agent) (envs : nat)
    (writer : bool) (save_dir eval_dir : string) (start : Q) (num_updates : Z)
  : Mon LoopState :=
  fold_for (seqZ 1 num_updates)
           (update_cycle fuel agents envs writer save_dir eval_dir start num_updates)
           {| all_infos := []; environment_steps := 0 |}.

(** Lines 174-177. *)
Definition make_agents : Mon (list Agent) :=
  do osp <- read observation_space;
  do asp <- read action_space;
  collect (enumerate (zip osp asp)) (λ p,
    exec call_ (NewA2C p.1 p.2.1 p.2.2);
    ret (A2C p.1 p.2.1 p.2.2)).

Definition main (fuel : nat) (save_dir eval_dir loss_dir : string) : Mon unit :=
  do writer <- (if bool_decide (loss_dir = "") then ret false
                else let loss_dir := format_dir loss_dir in
                     exec call_ (CleanupLogDir loss_dir);
                     exec call_ (NewSummaryWriter loss_dir);
                     ret true);
  let eval_dir := format_dir eval_dir in
  let save_dir := format_dir save_dir in
  exec call_ (CleanupLogDir eval_dir);
  exec call_ (CleanupLogDir save_dir);
  exec call_ (SetNumThreads 1);
  do envs <- make_vec_envs (num_envs algorithm) None;
  do agents <- make_agents;
  do obs <- call (EnvsReset envs) envs_reset;
  exec for_each agents (λ agent, call_ (WandbWatch (agent_id agent)));
  exec for_each (seq 0 (length obs)) (λ i,
         do agent <- index agents i;
         do obs_i <- index obs i;
         exec call_ (StorageSeedObs (agent_id agent) obs_i);
         call_ (StorageTo (agent_id agent) (device algorithm)));
  do start <- call TimeTime time_time;
  do q <- floordiv (py_int (num_env_steps config)) (num_steps algorithm);
  do num_updates <- floordiv q (num_envs algorithm);
  exec update_loop_all fuel agents envs writer save_dir eval_dir start num_updates;
  call_ (EnvsClose envs).

End Program.

Global Arguments Agent : clear implicits.
Global Arguments EvalState : clear implicits.
Global Arguments Unzipped : clear implicits.

(** ** Vocabulary for statements about traces *)

Section Vocabulary.

Context {Tensor Space : Type}.

Abbreviation Mon := (M Tensor Space).
Abbreviation Ev := (Event Tensor Space).

Definition is_envs_step (e : Event Tensor Space) : bool :=
  match e with
  | EnvsStep _ _ => true
  | _ => false
  end.

Definition is_wandb_log (e : Event Tensor Space) : bool :=
  match e with
  | WandbLog _ => true
  | _ => false
  end.

Definition is_make_archive (e : Event Tensor Space) : bool :=
  match e with
  | MakeArchive _ _ _ _ => true
  | _ => false
  end.

Definition is_make_vec_envs (e : Event Tensor Space) : bool :=
  match e with
  | MakeVecEnvs _ _ _ => true
  | _ => false
  end.

(** The [update] calls of a trace: who updates, and the storages handed
    over. *)
Definition updates_of (evs : list (Event Tensor Space)) : list (nat * list nat) :=
  omap (λ e, match e with
             | Update i storages => Some (i, storages)
             | _ => None
             end) evs.

(** The three per-agent calls of the update phase. *)
Definition is_phase_call (e : Event Tensor Space) : bool :=
  match e with
  | ComputeReturns _ | Update _ _ | StorageAfterUpdate _ => true
  | _ => false
  end.

(** What the update loop itself emits: [update] calls and the scalars
    written to the summary writer. *)
Definition is_update_or_scalar (e : Event Tensor Space) : bool :=
  match e with
  | Update _ _ | AddScalar _ _ _ => true
  | _ => false
  end.

(** The storages an event writes, named by their owner. *)
Definition storages_written (e : Event Tensor Space) : list nat :=
  match e with
  | StorageSeedObs i _ => [i]
  | StorageTo i _ => [i]
  | StorageInsert i _ => [i]
  | ComputeReturns i => [i]
  | StorageAfterUpdate i => [i]
  | _ => []
  end.

(** The storages handed to an [update] call. *)
Definition storages_read (e : Event Tensor Space) : list nat :=
  match e with
  | Update _ storages => storages
  | _ => []
  end.


(** [Emits P m]: whatever [m] does, and however it stops, it only appends
    events to the trace and each appended event satisfies [P]. *)
Definition Emits {A} (P : Ev → Prop) (m : Mon A) : Prop :=
  ∀ tr, ∃ evs, trace_of (m tr) = tr ++ evs ∧ Forall P evs.

(** The mask argument of an [act] call made with explicit tensors. *)
Definition act_masks_are (masks : list (list Q)) (e : Ev) : Prop :=
  ∀ agent args, e = ModelAct agent args →
                ∃ obs hidden, args = Given obs hidden masks.

(** An insert event for [agent] that carries the given mask tensors. *)
Definition inserts_masks (masks bad_masks : list (list Q))
    (agent : Agent Space) (e : Ev) : Prop :=
  ∃ args, e = StorageInsert (agent_id agent) args
          ∧ ins_masks args = masks ∧ ins_bad_masks args = bad_masks.

(** The events of the [act] calls of one training step. *)
Definition act_events (agents : list (Agent Space)) (step : nat) : list Ev :=
  (λ agent, ModelAct (agent_id agent) (FromStorage step)) <$> agents.

(** The four events of a flush, in the order they are emitted, for a log
    point reached with trace [tr]. *)
Definition flush_events_are {oracle : Oracle Tensor Space}
    (algorithm : Algorithm) (start : Q) (j : Z) (st : LoopState)
    (tr evs : list Ev) : Prop :=
  let total_num_steps := ((j + 1) * num_envs algorithm * num_steps algorithm)%Z in
  ∃ reward,
    Metrics._squash_info (all_infos st) !! "episode_reward" = Some reward
    ∧ evs = [ TimeTime;
              LoggingInfo (MsgUpdates j total_num_steps
                (py_int (inject_Z total_num_steps
                         / (time_time (tr ++ [TimeTime]) - start))));
              LoggingInfo (MsgTrainReward (length (all_infos st)) reward);
              WandbLog (<["environment_steps" := inject_Z (environment_steps st)]>
                          (Metrics._squash_info (all_infos st))) ].

(** The events of a checkpoint cycle for [agents]: one directory and one
    save per agent. *)
Definition save_events (cur_save_dir : string) (agents : list (Agent Space))
  : list Ev :=
  flat_map (λ agent,
              let save_at := cur_save_dir +:+ "/" +:+ agent_name (agent_id agent) in
              [Makedirs save_at; AgentSave (agent_id agent) save_at])
           agents.

(** The claim's reading of the data model: an episode terminated naturally
    at a step when it ended there and the end was not a time-limit
    truncation; the mask would be 0 exactly then. *)
Definition terminated_naturally (done_ truncated_ : bool) : bool :=
  done_ && negb truncated_.

Definition natural_termination_mask (done_ truncated_ : bool) : list Q :=
  if terminated_naturally done_ truncated_ then [0%Q] else [1%Q].

End Vocabulary.

(** ** Rollout storages *)

Section StorageModel.

Context {Tensor Space : Type}.

(** Modelled from the spec: the Rollout Storage ([storage.py]) and the
    effect on it of the agent methods [compute_returns] and [update]
    ([a2c.py]); neither file is among the sources.  A storage holds the
    carry-over slot 0 (observation, recurrent state, mask), the transitions
    inserted since the last reset, and its returns buffer, here only whether
    it has been filled.  [insert] writes the next slot and fails once the
    horizon is used up; [after_update] copies the last slot's observation,
    recurrent state and mask into slot 0 and resets the pointer;
    [compute_returns] fills the returns buffer of the agent's own storage;
    [to] is a placement with no semantic effect; [update] reads the storages
    it is given and mutates the policy parameters only. *)
Record Storage := {
  slot0_obs : option Tensor;
  slot0_hidden : option Tensor;
  slot0_masks : option (list (list Q));
  transitions : list (InsertArgs Tensor);
  returns_filled : bool;
}.

(** [storage.obs[0].copy_(obs)] *)
Definition storage_seed_obs (obs : Tensor) (st : Storage) : Storage :=
  {| slot0_obs := Some obs;
     slot0_hidden := slot0_hidden st;
     slot0_masks := slot0_masks st;
     transitions := transitions st;
     returns_filled := returns_filled st |}.

Definition storage_insert (horizon : nat) (args : InsertArgs Tensor)
    (st : Storage) : option Storage :=
  if decide (length (transitions st) < horizon)%nat
  then Some {| slot0_obs := slot0_obs st;
               slot0_hidden := slot0_hidden st;
               slot0_masks := slot0_masks st;
               transitions := transitions st ++ [args];
               returns_filled := false |}
  else None.

Definition storage_compute_returns (st : Storage) : Storage :=
  {| slot0_obs := slot0_obs st;
     slot0_hidden := slot0_hidden st;
     slot0_masks := slot0_masks st;
     transitions := transitions st;
     returns_filled := true |}.

Definition storage_after_update (st : Storage) : Storage :=
  match last (transitions st) with
  | Some args =>
      {| slot0_obs := Some (ins_obs args);
         slot0_hidden := Some (ins_hidden args);
         slot0_masks := Some (ins_masks args);
         transitions := [];
         returns_filled := false |}
  | None =>
      {| slot0_obs := slot0_obs st;
         slot0_hidden := slot0_hidden st;
         slot0_masks := slot0_masks st;
         transitions := [];
         returns_filled := false |}
  end.

(** The effect of one call of the orchestrator on the storages, which are
    keyed by the owner's [agent_id].  A call on a storage that does not
    exist, or an insert beyond the horizon, fails. *)
Definition storage_effect (horizon : nat) (e : Event Tensor Space)
    (S : gmap nat Storage) : option (gmap nat Storage) :=
  match e with
  | StorageSeedObs i obs =>
      st ← S !! i; Some (<[i := storage_seed_obs obs st]> S)
  | StorageTo i _ => _ ← S !! i; Some S
  | StorageInsert i args =>
      st ← S !! i; st' ← storage_insert horizon args st; Some (<[i := st']> S)
  | ComputeReturns i =>
      st ← S !! i; Some (<[i := storage_compute_returns st]> S)
  | StorageAfterUpdate i =>
      st ← S !! i; Some (<[i := storage_after_update st]> S)
  | Update _ _ => Some S
  | _ => Some S
  end.

Fixpoint storage_effects (horizon : nat) (evs : list (Event Tensor Space))
    (S : gmap nat Storage) : option (gmap nat Storage) :=
  match evs with
  | [] => Some S
  | e :: evs' => S' ← storage_effect horizon e S; storage_effects horizon evs' S'
  end.

End StorageModel.

Global Arguments Storage : clear implicits.

(** ** A small concrete world

    Two agents' worth of collaborators whose answers do not depend on the
    trace: every environment step reports the same done flags and info
    dicts.  Tensors are numbers, spaces carry no data. *)

Module Toy.

Definition world (n_agents : nat) (done : list bool)
    (infos : list (gmap string pyval)) : Oracle nat unit :=
  {| format_dir d := d;
     observation_space _ := replicate n_agents tt;
     action_space _ := replicate n_agents tt;
     envs_reset _ := replicate n_agents 0%nat;
     model_act _ := {| act_value := 0%nat; act_action := 0%nat;
                       act_log_prob := 0%nat; act_hidden := 0%nat |};
     envs_step _ := {| step_obs := replicate n_agents 0%nat;
                       step_reward := 0%nat;
                       step_done := done;
                       step_infos := infos |};
     reward_column r _ := r;
     zeros_hidden _ _ := 0%nat;
     agent_update _ := [("loss", 0%nat)];
     time_time tr := inject_Z (Z.of_nat (length tr));
     make_archive _ := "archive.tar.xz";
     glob_glob _ := [] |}.

Definition agents2 : list (Agent unit) := [A2C 0 tt tt; A2C 1 tt tt].

(** A world in which both instances finish an episode at every step. *)
Definition busy (n_agents : nat) : Oracle nat unit :=
  world n_agents [true; true]
    [ {[ "episode_reward" := PArray [1%Q; 1%Q] ]};
      {[ "episode_reward" := PArray [3%Q; 3%Q] ]} ].

(** A world in which no episode ever finishes. *)
Definition idle (n_agents : nat) : Oracle nat unit :=
  world n_agents [false; false] [∅; ∅].

(** An info dict as the statistics wrapper emits it at the end of an
    episode. *)
Definition episode_info (reward : Q) : gmap string pyval :=
  {[ "episode_reward" := PArray [reward; reward] ]}.

(** The info dict of an episode that the time limit cut short. *)
Definition truncated_info (reward : Q) : gmap string pyval :=
  <[ TimeLimit_truncated := PBool true ]> (episode_info reward).

Definition config : Config :=
  {| num_env_steps := 40;
     eval_dir := "eval";
     loss_dir := "loss";
     save_dir := "save";
     log_interval := 2;
     save_interval := Some 3%Z;
     eval_interval := Some 3%Z;
     episodes_per_eval := 2 |}.

Definition algorithm : Algorithm :=
  {| num_steps := 5; num_envs := 2; device := "cpu" |}.

End Toy.

(** ** Further vocabulary *)

(** The last [n] elements of a list. *)
Definition last_n {A} (n : nat) (l : list A) : list A :=
  drop (length l - n) l.

Section Vocabulary2.

Context {Tensor Space : Type} {oracle : Oracle Tensor Space}.


(** The non-empty info dicts the environment answered at the steps among
    the events [evs] that continue the trace [tr], in order. *)
Fixpoint step_infos_of (tr evs : list (Event Tensor Space))
  : list (gmap string pyval) :=
  match evs with
  | [] => []
  | e :: evs' =>
      (if is_envs_step e
       then filter (λ i, i ≠ ∅) (step_infos (envs_step (tr ++ [e])))
       else [])
      ++ step_infos_of (tr ++ [e]) evs'
  end.


(** Whether a computation returned normally. *)
Definition returned {A} (o : outcome Tensor Space A) : bool :=
  match o with
  | Ok _ _ => true
  | _ => false
  end.

(** The agent an [act] call is made on. *)
Definition act_agent (e : Event Tensor Space) : option nat :=
  match e with
  | ModelAct i _ => Some i
  | _ => None
  end.

(** The agent whose storage an insert is made on. *)
Definition insert_agent (e : Event Tensor Space) : option nat :=
  match e with
  | StorageInsert i _ => Some i
  | _ => None
  end.

Definition is_envs_close (e : Event Tensor Space) : bool :=
  match e with
  | EnvsClose _ => true
  | _ => false
  end.

Definition is_writer_call (e : Event Tensor Space) : bool :=
  match e with
  | NewSummaryWriter _ | AddScalar _ _ _ => true
  | _ => false
  end.

End Vocabulary2.



(** Whether update [j] of [num_updates] is due for an interval-driven
    stage: the condition of lines 270-271 and 282-283 for a configured,
    non-zero interval. *)
Definition due (interval : option Z) (j num_updates : Z) : bool :=
  match interval with
  | None => false
  | Some n => bool_decide ((j `mod` n)%Z = 0%Z ∨ j = num_updates)
  end.

(** * Properties *)

Module MetricsFacts.
Import Metrics.

Lemma set_fold_insert_lookup {V} (f : string → V) (X : gset string) key :
  set_fold (λ k (m : gmap string V), <[k := f k]> m) ∅ X !! key
  = if decide (key ∈ X) then Some (f key) else None.
Proof.
  assert (H : (key ∈ X →
               set_fold (λ k (m : gmap string V), <[k := f k]> m) ∅ X !! key
               = Some (f key))
            ∧ (key ∉ X →
               set_fold (λ k (m : gmap string V), <[k := f k]> m) ∅ X !! key
               = None)).
  { apply (set_fold_ind_L (λ (m : gmap string V) (Y : gset string),
      (key ∈ Y → m !! key = Some (f key)) ∧ (key ∉ Y → m !! key = None))).
    - split; [set_solver | intros _; apply lookup_empty].
    - intros k Y m Hk [IH1 IH2]. split; intros Hin.
      + destruct (decide (k = key)) as [->|Hne].
        * apply lookup_insert_eq.
        * rewrite lookup_insert_ne by done. apply IH1.
          apply elem_of_union in Hin as [Hin|Hin]; [|done].
          apply elem_of_singleton in Hin. congruence.
      + rewrite lookup_insert_ne by set_solver. apply IH2. set_solver. }
  destruct H as [H1 H2]. case_decide; auto.
Qed.

(** Empty dicts contribute to no key, so dropping them changes no mean. *)
Lemma contributions_filter_nonempty key (info : list (gmap string pyval)) :
  contributions key (filter (λ i, i ≠ ∅) info) = contributions key info.
Proof.
  unfold contributions.
  induction info as [|d info IH]; [done|].
  destruct (decide (d = ∅)) as [->|Hd].
  - rewrite filter_cons_False by (intros H; by apply H).
    simpl. by rewrite lookup_empty.
  - rewrite filter_cons_True by done. simpl.
    destruct (d !! key); simpl; [f_equal|]; exact IH.
Qed.

Lemma elem_of_union_list_dom (info : list (gmap string pyval)) key :
  key ∈ (⋃ (dom <$> info) : gset string) ↔ ∃ d, d ∈ info ∧ is_Some (d !! key).
Proof.
  rewrite elem_of_union_list. split.
  - intros (X & HX & Hk). apply list_elem_of_fmap in HX as (d & -> & Hd).
    exists d. split; [done|]. by apply elem_of_dom.
  - intros (d & Hd & Hk). exists (dom d). split.
    + apply list_elem_of_fmap. eauto.
    + by apply elem_of_dom.
Qed.

Lemma elem_of_squash_keys info key :
  key ∈ squash_keys info ↔
  key ≠ TimeLimit_truncated ∧ ∃ d, d ∈ info ∧ is_Some (d !! key).
Proof.
  unfold squash_keys. rewrite elem_of_difference, elem_of_union_list_dom.
  rewrite not_elem_of_singleton. split.
  - intros [(d & Hd & Hk) Hne]. split; [done|].
    apply list_elem_of_filter in Hd as [_ Hd]. eauto.
  - intros [Hne (d & Hd & Hk)]. split; [|done].
    exists d. split; [|done]. apply list_elem_of_filter. split; [|done].
    intros ->. rewrite lookup_empty in Hk. by destruct Hk.
Qed.

Lemma squash_info_lookup info key :
  _squash_info info !! key
  = if decide (key ∈ squash_keys info)
    then Some (np_mean (contributions key info)) else None.
Proof.
  unfold _squash_info, squash_keys.
  rewrite (set_fold_insert_lookup
             (λ k, np_mean (contributions k (filter (λ i, i ≠ ∅) info)))).
  by rewrite contributions_filter_nonempty.
Qed.

(** C2: the squash operation drops empty dicts, takes the union of the keys
    of the remaining dicts without the reserved truncation key, and maps each
    such key to the mean, over exactly the dicts that contain the key, of the
    dict's value reduced by summation; squash([]) = {}, squash([{}, {}]) = {},
    squash([{"r":1},{"r":3}]) = {"r": 2.0}; the reserved key never appears in
    the output. *)
Theorem squash_info_spec :
  (∀ info, dom (_squash_info info) = squash_keys info)
  ∧ (∀ info key,
       key ∈ dom (_squash_info info) ↔
       key ≠ TimeLimit_truncated
       ∧ ∃ d, d ∈ info ∧ d ≠ ∅ ∧ is_Some (d !! key))
  ∧ (∀ info key,
       _squash_info info !! key
       = if decide (key ∈ squash_keys info)
         then Some (np_mean (np_sum <$> omap (λ d, d !! key) info))
         else None)
  ∧ _squash_info [] = ∅
  ∧ _squash_info [∅; ∅] = ∅
  ∧ _squash_info [ {[ "r" := PNum 1 ]}; {[ "r" := PNum 3 ]} ]
    = {[ "r" := 2%Q ]}
  ∧ (∀ info, _squash_info info !! TimeLimit_truncated = None).
Proof.
  assert (Hdom : ∀ info, dom (_squash_info info) = squash_keys info).
  { intros info. apply set_eq. intros key.
    rewrite elem_of_dom, squash_info_lookup.
    case_decide; split; intros H'; try done; try by eexists.
    all: by destruct H'. }
  split_and!.
  - exact Hdom.
  - intros info key. rewrite Hdom, elem_of_squash_keys.
    split.
    + intros [Hne (d & Hd & Hk)]. split; [done|]. exists d. split_and!; try done.
      intros ->. rewrite lookup_empty in Hk. by destruct Hk.
    + intros [Hne (d & Hd & _ & Hk)]. eauto.
  - intros info key. rewrite squash_info_lookup.
    case_decide as Hk; [|done]. do 2 f_equal.
    unfold contributions. clear Hk.
    induction info as [|d info IH]; [done|].
    simpl. destruct (d !! key); simpl; [f_equal|]; exact IH.
  - reflexivity.
  - vm_compute. reflexivity.
  - vm_compute. reflexivity.
  - intros info. rewrite squash_info_lookup.
    rewrite decide_False; [done|].
    rewrite elem_of_squash_keys. intros [Hne _]. by apply Hne.
Qed.

End MetricsFacts.

(** ** The trace monad *)

Section Facts.

Context {Tensor Space : Type} {oracle : Oracle Tensor Space}.
Variable config : Config.
Variable algorithm : Algorithm.

Abbreviation Mon := (M Tensor Space).
Abbreviation Ev := (Event Tensor Space).

Lemma bind_Ok {A B} (m : Mon A) (k : A → Mon B) tr b tr' :
  bind m k tr = Ok b tr' ↔ ∃ a tr1, m tr = Ok a tr1 ∧ k a tr1 = Ok b tr'.
Proof.
  unfold bind. split.
  - destruct (m tr) as [a tr1|e tr1|tr1]; [eauto|done|done].
  - intros (a & tr1 & -> & Hk). done.
Qed.


Lemma bind_call {A B} (e : Ev) (f : list Ev → A) (k : A → Mon B) tr :
  bind (call e f) k tr = k (f (tr ++ [e])) (tr ++ [e]).
Proof. reflexivity. Qed.

Lemma bind_call_ {B} (e : Ev) (k : unit → Mon B) tr :
  bind (call_ e) k tr = k tt (tr ++ [e]).
Proof. reflexivity. Qed.

Lemma bind_ret {A B} (a : A) (k : A → Mon B) tr : bind (ret a) k tr = k a tr.
Proof. reflexivity. Qed.

Lemma bind_assoc {A B C} (m : Mon A) (k1 : A → Mon B) (k2 : B → Mon C) tr :
  bind (bind m k1) k2 tr = bind m (λ a, bind (k1 a) k2) tr.
Proof. unfold bind. by destruct (m tr). Qed.

Lemma bind_Raise {A B} (m : Mon A) (k : A → Mon B) tr e tr1 :
  m tr = Raise e tr1 → bind m k tr = Raise e tr1.
Proof. unfold bind. by intros ->. Qed.

Lemma bind_Timeout {A B} (m : Mon A) (k : A → Mon B) tr tr1 :
  m tr = Timeout tr1 → bind m k tr = Timeout tr1.
Proof. unfold bind. by intros ->. Qed.

Lemma bind_ext {A B} (m : Mon A) (k1 k2 : A → Mon B) tr :
  (∀ a tr1, k1 a tr1 = k2 a tr1) → bind m k1 tr = bind m k2 tr.
Proof. intros H. unfold bind. destruct (m tr); auto. Qed.

(** Running [m] first when its result is known. *)
Lemma bind_known {A B} (m : Mon A) (k : A → Mon B) tr a tr1 :
  m tr = Ok a tr1 → bind m k tr = k a tr1.
Proof. unfold bind. by intros ->. Qed.

Lemma Emits_ret {A} (P : Ev → Prop) (a : A) : Emits P (ret a).
Proof. intros tr. exists []. simpl. by rewrite app_nil_r. Qed.

Lemma Emits_raise {A} (P : Ev → Prop) e : Emits P (raise (A:=A) e).
Proof. intros tr. exists []. simpl. by rewrite app_nil_r. Qed.

Lemma Emits_timeout {A} (P : Ev → Prop) : Emits P (timeout (A:=A)).
Proof. intros tr. exists []. simpl. by rewrite app_nil_r. Qed.

Lemma Emits_read {A} (P : Ev → Prop) (f : list Ev → A) : Emits P (read f).
Proof. intros tr. exists []. simpl. by rewrite app_nil_r. Qed.

Lemma Emits_call {A} (P : Ev → Prop) e (f : list Ev → A) :
  P e → Emits P (call e f).
Proof. intros He tr. exists [e]. simpl. auto. Qed.

Lemma Emits_call_ (P : Ev → Prop) e : P e → Emits P (call_ e).
Proof. apply Emits_call. Qed.

Lemma Emits_bind_ok {A B} (P : Ev → Prop) (m : Mon A) (k : A → Mon B) :
  Emits P m →
  (∀ a tr tr', m tr = Ok a tr' → Emits P (k a)) →
  Emits P (bind m k).
Proof.
  intros Hm Hk tr. destruct (Hm tr) as (evs & Htr & Hevs).
  unfold bind. destruct (m tr) as [a tr1|e tr1|tr1] eqn:Hmtr; simpl in *; subst.
  - destruct (Hk a _ _ Hmtr (tr ++ evs)) as (evs' & -> & Hevs').
    exists (evs ++ evs'). rewrite app_assoc. split; [done|].
    by apply Forall_app.
  - eauto.
  - eauto.
Qed.

Lemma Emits_bind {A B} (P : Ev → Prop) (m : Mon A) (k : A → Mon B) :
  Emits P m → (∀ a, Emits P (k a)) → Emits P (bind m k).
Proof. intros Hm Hk. apply Emits_bind_ok; auto. Qed.

Lemma Emits_lift {A} (P : Ev → Prop) (r : exn + A) : Emits P (lift r).
Proof. destruct r; [apply Emits_raise | apply Emits_ret]. Qed.

Lemma Emits_index {A} (P : Ev → Prop) (l : list A) i : Emits P (index l i).
Proof. unfold index. destruct (l !! i); [apply Emits_ret | apply Emits_raise]. Qed.

Lemma Emits_getitem (P : Ev → Prop) m key : Emits P (getitem m key).
Proof. unfold getitem. destruct (m !! key); [apply Emits_ret | apply Emits_raise]. Qed.

Lemma Emits_pymod (P : Ev → Prop) a b : Emits P (pymod a b).
Proof. unfold pymod. case_decide; [apply Emits_raise | apply Emits_ret]. Qed.

Lemma Emits_floordiv (P : Ev → Prop) a b : Emits P (floordiv a b).
Proof. unfold floordiv. case_decide; [apply Emits_raise | apply Emits_ret]. Qed.

Lemma Emits_unzip4 (P : Ev → Prop) outs : Emits P (unzip4 outs).
Proof. destruct outs; [apply Emits_raise | apply Emits_ret]. Qed.

Lemma Emits_for_each {A} (P : Ev → Prop) (l : list A) (body : A → Mon unit) :
  (∀ x, x ∈ l → Emits P (body x)) → Emits P (for_each l body).
Proof.
  induction l as [|x l IH]; intros Hbody; simpl.
  - apply Emits_ret.
  - apply Emits_bind; [apply Hbody; left|].
    intros _. apply IH. intros y Hy. apply Hbody. by right.
Qed.

Lemma Emits_collect {A B} (P : Ev → Prop) (l : list A) (f : A → Mon B) :
  (∀ x, x ∈ l → Emits P (f x)) → Emits P (collect l f).
Proof.
  induction l as [|x l IH]; intros Hf; simpl.
  - apply Emits_ret.
  - apply Emits_bind; [apply Hf; left|]. intros y.
    apply Emits_bind; [|intros; apply Emits_ret].
    apply IH. intros z Hz. apply Hf. by right.
Qed.

Lemma Emits_fold_for {A S} (P : Ev → Prop) (l : list A) (body : S → A → Mon S) s :
  (∀ s x, x ∈ l → Emits P (body s x)) → Emits P (fold_for l body s).
Proof.
  revert s. induction l as [|x l IH]; intros s Hbody; simpl.
  - apply Emits_ret.
  - apply Emits_bind; [apply Hbody; left|].
    intros s'. apply IH. intros s'' y Hy. apply Hbody. by right.
Qed.

Lemma Emits_make_vec_envs (P : Ev → Prop) n dir :
  (∀ h, P (MakeVecEnvs h n dir)) → Emits P (make_vec_envs n dir).
Proof. intros HP tr. eexists [_]. simpl. split; [done|]. auto. Qed.

Lemma Emits_weaken {A} (P Q : Ev → Prop) (m : Mon A) :
  (∀ e, P e → Q e) → Emits P m → Emits Q m.
Proof.
  intros HPQ Hm tr. destruct (Hm tr) as (evs & ? & Hevs).
  exists evs. split; [done|]. eapply Forall_impl; eauto.
Qed.

(** ** Evaluation *)


Lemma evaluate_body_masks agents eval_envs masks s :
  Emits (act_masks_are masks) (evaluate_body agents eval_envs masks s).
Proof.
  unfold evaluate_body.
  apply Emits_bind.
  { apply Emits_collect. intros p _.
    apply Emits_bind; [apply Emits_index|]. intros obs.
    apply Emits_call. intros agent args [= <- <-]. eauto. }
  intros outs. apply Emits_bind; [apply Emits_unzip4|]. intros un.
  apply Emits_bind; [|intros; apply Emits_ret].
  apply Emits_call. by intros agent args.
Qed.

Lemma evaluate_loop_masks fuel agents eval_envs masks s :
  Emits (act_masks_are masks) (evaluate_loop config fuel agents eval_envs masks s).
Proof.
  revert s. induction fuel as [|fuel IH]; intros s; simpl.
  - destruct (evaluate_guard config s); [apply Emits_timeout | apply Emits_ret].
  - destruct (evaluate_guard config s); [|apply Emits_ret].
    apply Emits_bind; [apply evaluate_body_masks|]. apply IH.
Qed.

(** C9: in the evaluation loop the mask tensor passed to every agent's
    [act] call is, on every iteration, the all-zeros tensor created before
    the loop; the mask rows computed from the done flags inside the loop are
    never passed on.  This holds for every run of [evaluate], whether it
    returns, raises or does not finish within the fuel. *)
Theorem evaluate_act_masks_zero fuel agents monitor_dir tr :
  ∃ evs : list Ev,
    trace_of (evaluate config fuel agents monitor_dir tr) = tr ++ evs
    ∧ Forall (act_masks_are
                (replicate (Z.to_nat (episodes_per_eval config)) [0%Q])) evs.
Proof.
  revert tr. change (Emits (act_masks_are
    (replicate (Z.to_nat (episodes_per_eval config)) [0%Q]))
    (evaluate config fuel agents monitor_dir)).
  unfold evaluate.
  apply Emits_bind; [apply Emits_make_vec_envs; by intros h agent args|].
  intros eval_envs.
  apply Emits_bind; [apply Emits_call; by intros agent args|]. intros n_obs.
  apply Emits_bind_ok.
  { unfold zeros_column. case_decide; [apply Emits_raise | apply Emits_ret]. }
  intros masks tr tr' Hmasks.
  assert (masks = replicate (Z.to_nat (episodes_per_eval config)) [0%Q]) as ->.
  { unfold zeros_column in Hmasks. case_decide; [done|].
    by injection Hmasks as <- _. }
  apply Emits_bind; [apply evaluate_loop_masks|].
  intros all. apply Emits_bind; [apply Emits_call_; by intros agent args|].
  intros _. apply Emits_bind; [apply Emits_getitem|].
  intros r. apply Emits_call_. by intros agent args.
Qed.

(** ** Rollout *)

Lemma collect_calls {A B} (l : list A) (f : A → Ev) (g : list Ev → B) tr :
  ∃ outs, collect l (λ x, call (f x) g) tr = Ok outs (tr ++ (f <$> l))
          ∧ length outs = length l.
Proof.
  revert tr. induction l as [|x l IH]; intros tr; simpl.
  - exists []. unfold ret. by rewrite app_nil_r.
  - unfold bind at 1. unfold call at 1.
    destruct (IH (tr ++ [f x])) as (outs & Houts & Hlen).
    unfold bind at 1. rewrite Houts. eexists (_ :: outs). unfold ret.
    rewrite <- app_assoc. simpl. split; [done|]. by rewrite Hlen.
Qed.

Lemma for_each_calls {A} (l : list A) (f : A → Ev) tr :
  for_each l (λ x, call_ (f x)) tr = Ok tt (tr ++ (f <$> l)).
Proof.
  revert tr. induction l as [|x l IH]; intros tr; simpl.
  - unfold ret. by rewrite app_nil_r.
  - unfold bind, call_, call. rewrite IH. by rewrite <- app_assoc.
Qed.

Lemma index_Ok {A} (l : list A) i a (tr tr' : list Ev) :
  index l i tr = Ok a tr' ↔ l !! i = Some a ∧ tr' = tr.
Proof.
  unfold index. destruct (l !! i); unfold ret, raise; split.
  - by intros [= -> ->].
  - by intros [[= ->] ->].
  - done.
  - by intros [? _].
Qed.

Lemma mask_rows_lookup done k :
  mask_rows done !! k
  = (λ d : bool, if d then [0%Q] else [1%Q]) <$> (done !! k).
Proof. unfold mask_rows. apply list_lookup_fmap. Qed.

Lemma bad_mask_rows_lookup infos bad :
  bad_mask_rows infos = inr bad →
  length bad = length infos
  ∧ ∀ k info, infos !! k = Some info →
      ∃ t, truncated info = inr t
           ∧ bad !! k = Some (if t then [0%Q] else [1%Q]).
Proof.
  revert bad. induction infos as [|info infos IH]; intros bad; simpl.
  - intros [= <-]. split; [done|]. by intros k info'.
  - destruct (truncated info) as [e|t] eqn:Ht; [done|].
    destruct (bad_mask_rows infos) as [e|rows]; [done|].
    intros [= <-]. destruct (IH rows eq_refl) as [Hlen Hrows].
    split; [simpl; by rewrite Hlen|].
    intros [|k] info'; simpl.
    + intros [= <-]. eauto.
    + apply Hrows.
Qed.


Lemma insert_loop_inv (agents : list (Agent Space)) (r : StepOut Tensor)
    (un : Unzipped Tensor) masks bad_masks (n s : nat) tr tr' :
  for_each (seq s n) (λ i,
      do agent <- index agents i;
      do obs_i <- index (step_obs r) i;
      do hidden_i <- index (n_recurrent_hidden_states un) i;
      do action_i <- index (n_action un) i;
      do log_prob_i <- index (n_action_log_prob un) i;
      do value_i <- index (n_value un) i;
      call_ (StorageInsert (agent_id agent)
               {| ins_obs := obs_i;
                  ins_hidden := hidden_i;
                  ins_action := action_i;
                  ins_log_prob := log_prob_i;
                  ins_value := value_i;
                  ins_reward := reward_column (step_reward r) i;
                  ins_masks := masks;
                  ins_bad_masks := bad_masks |})) tr = Ok tt tr' →
  ∃ inserts,
    tr' = tr ++ inserts
    ∧ Forall2 (inserts_masks masks bad_masks) (take n (drop s agents)) inserts.
Proof.
  revert s tr. induction n as [|n IH]; intros s tr; simpl.
  - intros [= <-]. exists []. rewrite app_nil_r. split; [done|].
    rewrite take_0. constructor.
  - intros H. apply bind_Ok in H as ([] & tr1 & Hbody & Hrest).
    apply bind_Ok in Hbody as (agent & ? & [Hag ->]%index_Ok & Hbody).
    apply bind_Ok in Hbody as (obs_i & ? & [_ ->]%index_Ok & Hbody).
    apply bind_Ok in Hbody as (hidden_i & ? & [_ ->]%index_Ok & Hbody).
    apply bind_Ok in Hbody as (action_i & ? & [_ ->]%index_Ok & Hbody).
    apply bind_Ok in Hbody as (log_prob_i & ? & [_ ->]%index_Ok & Hbody).
    apply bind_Ok in Hbody as (value_i & ? & [_ ->]%index_Ok & Hbody).
    injection Hbody as <-.
    apply IH in Hrest as (inserts & -> & Hall).
    eexists (_ :: inserts). rewrite <- app_assoc. split; [done|].
    rewrite (drop_S _ _ _ Hag). simpl. constructor; [|done].
    eexists. split; [done|]. done.
Qed.

Lemma unzip4_Ok outs un (tr tr' : list Ev) :
  unzip4 outs tr = Ok un tr' →
  tr' = tr ∧ outs ≠ [] ∧ n_action un = act_action <$> outs.
Proof.
  destruct outs; [done|]. unfold unzip4, ret. intros [= <- <-]. done.
Qed.

Lemma lift_Ok {A} (r : exn + A) a (tr tr' : list Ev) :
  lift r tr = Ok a tr' ↔ r = inr a ∧ tr' = tr.
Proof.
  destruct r; unfold lift, raise, ret; split; try done.
  - by intros [? _].
  - by intros [= -> ->].
  - by intros [[= ->] ->].
Qed.


Lemma rollout_step_inv agents envs window step tr window' tr' :
  rollout_step agents envs window step tr = Ok window' tr' →
  ∃ actions bad_masks inserts,
    let pre := tr ++ act_events agents step ++ [EnvsStep envs actions] in
    let r := envs_step pre in
    tr' = pre ++ inserts
    ∧ bad_mask_rows (step_infos r) = inr bad_masks
    ∧ Forall2 (inserts_masks (mask_rows (step_done r)) bad_masks) agents inserts
    ∧ window' = foldl deque_append window (filter (λ i, i ≠ ∅) (step_infos r)).
Proof.
  unfold rollout_step. intros H.
  apply bind_Ok in H as (outs & tr1 & Hacts & H).
  destruct (collect_calls agents
              (λ agent, ModelAct (agent_id agent) (FromStorage step))
              model_act tr) as (outs' & Hacts' & Hlen).
  rewrite Hacts' in Hacts. injection Hacts as -> <-.
  apply bind_Ok in H as (un & ? & (-> & Hne & Hact)%unzip4_Ok & H).
  apply bind_Ok in H as (r & tr2 & Hstep & H).
  injection Hstep as <- <-.
  apply bind_Ok in H as (bad & ? & [Hbad ->]%lift_Ok & H).
  apply bind_Ok in H as ([] & tr3 & Hins & H).
  injection H as <- <-.
  apply insert_loop_inv in Hins as (inserts & -> & Hall).
  rewrite drop_0, firstn_all in Hall.
  exists (n_action un), bad, inserts. simpl.
  unfold act_events. clear Hacts'.
  rewrite <- !app_assoc in Hbad, Hall. rewrite <- !app_assoc. done.
Qed.

Lemma filter_none (f : Ev → bool) (l : list Ev) :
  Forall (λ e, f e = false) l → filter (λ e, f e = true) l = [].
Proof.
  induction 1 as [|e l He _ IH]; [done|].
  rewrite filter_cons_False; [done|]. by rewrite He.
Qed.

Lemma rollout_step_events agents envs window step tr window' tr' :
  rollout_step agents envs window step tr = Ok window' tr' →
  ∃ evs : list Ev, tr' = tr ++ evs
         ∧ length (filter (λ e, is_envs_step e = true) evs) = 1%nat
         ∧ Forall (λ e, is_phase_call e = false) evs.
Proof.
  intros H. apply rollout_step_inv in H
    as (actions & bad_masks & inserts & -> & _ & Hins & _).
  eexists. split; [by rewrite <- !app_assoc|].
  assert (Hi : Forall (λ e : Ev, is_envs_step e = false ∧ is_phase_call e = false)
                      inserts).
  { clear -Hins. induction Hins as [|a e ? ? (args & -> & _) _ IH]; by constructor. }
  assert (Ha : Forall (λ e : Ev, is_envs_step e = false ∧ is_phase_call e = false)
                      (act_events agents step)).
  { unfold act_events. apply Forall_fmap. by apply Forall_true. }
  split.
  - rewrite !filter_app, !length_app.
    rewrite (filter_none is_envs_step (act_events agents step)).
    2:{ eapply Forall_impl; [exact Ha|]. by intros e [He _]. }
    rewrite (filter_none is_envs_step inserts).
    2:{ eapply Forall_impl; [exact Hi|]. by intros e [He _]. }
    done.
  - apply Forall_app; split; [|apply Forall_app; split].
    + eapply Forall_impl; [exact Ha|]. by intros ? [].
    + by repeat constructor.
    + eapply Forall_impl; [exact Hi|]. by intros ? [].
Qed.

Lemma fold_rollout_steps agents envs (steps : list nat) window tr window' tr' :
  fold_for steps (rollout_step agents envs) window tr = Ok window' tr' →
  ∃ evs : list Ev, tr' = tr ++ evs
         ∧ length (filter (λ e, is_envs_step e = true) evs) = length steps
         ∧ Forall (λ e, is_phase_call e = false) evs.
Proof.
  revert window tr. induction steps as [|step steps IH]; intros window tr; simpl.
  - intros [= <- <-]. exists []. by rewrite app_nil_r.
  - intros H. apply bind_Ok in H as (w1 & tr1 & Hstep & Hrest).
    apply rollout_step_events in Hstep as (evs1 & -> & Hn1 & Hp1).
    apply IH in Hrest as (evs2 & -> & Hn2 & Hp2).
    exists (evs1 ++ evs2). rewrite app_assoc. split; [done|].
    rewrite filter_app, length_app, Hn1, Hn2. split; [done|].
    by apply Forall_app.
Qed.

(** The rollout of one update makes exactly [num_steps] environment steps
    and none of the calls of the update phase. *)
Lemma rollout_events agents envs window tr window' tr' :
  rollout algorithm agents envs window tr = Ok window' tr' →
  ∃ evs : list Ev, tr' = tr ++ evs
         ∧ length (filter (λ e, is_envs_step e = true) evs)
           = Z.to_nat (num_steps algorithm)
         ∧ Forall (λ e, is_phase_call e = false) evs.
Proof.
  unfold rollout. intros H. apply fold_rollout_steps in H as (evs & ? & Hn & ?).
  rewrite length_seq in Hn. eauto.
Qed.

(** ** The update phase *)

Lemma scalars_Ok (writer : bool) (agent : Agent Space) (j : Z)
    (loss : list (string * Tensor)) tr :
  ∃ evs : list Ev,
    for_each loss (λ kv,
      if writer
      then call_ (AddScalar (agent_name (agent_id agent) +:+ "/" +:+ kv.1) kv.2 j)
      else ret tt) tr = Ok tt (tr ++ evs)
    ∧ updates_of evs = []
    ∧ Forall (λ e, is_update_or_scalar e = true) evs.
Proof.
  destruct writer; revert tr; induction loss as [|kv loss IH]; intros tr;
    cbn [for_each].
  - exists []. unfold ret. by rewrite app_nil_r.
  - rewrite bind_call_.
    destruct (IH (tr ++ [AddScalar (agent_name (agent_id agent) +:+ "/" +:+ kv.1)
                           kv.2 j])) as (evs & -> & Hu & Hf).
    eexists (_ :: evs). rewrite <- app_assoc. split; [done|].
    split; [done|]. by constructor.
  - exists []. unfold ret. by rewrite app_nil_r.
  - rewrite bind_ret. apply IH.
Qed.

(** The update loop always completes; it calls [update] once per agent of
    [order], in that order, each time with the storages of all [agents]. *)
Lemma update_loop_Ok (order agents : list (Agent Space)) (writer : bool) j tr :
  ∃ evs : list Ev,
    update_loop order agents writer j tr = Ok tt (tr ++ evs)
    ∧ updates_of evs
      = (λ agent, (agent_id agent, agent_id <$> agents)) <$> order
    ∧ Forall (λ e, is_update_or_scalar e = true) evs.
Proof.
  unfold update_loop. revert tr.
  induction order as [|agent order IH]; intros tr; simpl.
  - exists []. unfold ret. by rewrite app_nil_r.
  - rewrite bind_assoc, bind_call.
    destruct (scalars_Ok writer agent j
                (agent_update (tr ++ [Update (agent_id agent) (agent_id <$> agents)]))
                (tr ++ [Update (agent_id agent) (agent_id <$> agents)]))
      as (evs1 & Hs & Hu1 & Hf1).
    rewrite (bind_known _ _ _ _ _ Hs).
    destruct (IH ((tr ++ [Update (agent_id agent) (agent_id <$> agents)]) ++ evs1))
      as (evs2 & -> & Hu2 & Hf2).
    exists (Update (agent_id agent) (agent_id <$> agents) :: evs1 ++ evs2).
    split; [by rewrite <- !app_assoc|]. split.
    + unfold updates_of in *. simpl. rewrite omap_app, Hu1, Hu2. done.
    + constructor; [done|]. by apply Forall_app.
Qed.

Lemma returns_and_updates_Ok (agents : list (Agent Space)) (writer : bool) j tr :
  ∃ update_evs : list Ev,
    returns_and_updates agents writer j tr
    = Ok tt (tr ++ (ComputeReturns ∘ agent_id <$> agents)
                ++ update_evs
                ++ (StorageAfterUpdate ∘ agent_id <$> agents))
    ∧ updates_of update_evs
      = (λ agent, (agent_id agent, agent_id <$> agents)) <$> agents
    ∧ Forall (λ e, is_update_or_scalar e = true) update_evs.
Proof.
  unfold returns_and_updates.
  destruct (update_loop_Ok agents agents writer j
              (tr ++ (ComputeReturns ∘ agent_id <$> agents)))
    as (evs & Hloop & Hu & Hf).
  exists evs. split; [|done].
  rewrite (bind_known _ _ _ _ _
             (for_each_calls agents (λ agent, ComputeReturns (agent_id agent)) tr)).
  rewrite (bind_known _ _ _ _ _ Hloop).
  rewrite (for_each_calls agents (λ agent, StorageAfterUpdate (agent_id agent))).
  by rewrite <- !app_assoc.
Qed.

Lemma fst_enumerate {A} (l : list A) : fst <$> enumerate l = seq 0 (length l).
Proof.
  unfold enumerate. apply list_eq. intros i.
  rewrite list_lookup_fmap, list_lookup_imap.
  destruct (l !! i) as [x|] eqn:Hi; simpl.
  - apply lookup_lt_Some in Hi. by rewrite lookup_seq_lt.
  - apply lookup_ge_None in Hi. by rewrite lookup_seq_ge.
Qed.

(** Agents are numbered in the order they are built. *)
Lemma make_agents_ids tr agents tr' :
  make_agents tr = Ok agents tr' →
  agent_id <$> agents = seq 0 (length agents).
Proof.
  unfold make_agents, read. unfold bind at 1. unfold bind at 1.
  generalize (zip (observation_space tr) (action_space tr)). intros spaces.
  assert (Hgen : ∀ (l : list (nat * (Space * Space))) (tr0 : list Ev) ags tr1,
             collect l (λ p, exec call_ (NewA2C p.1 p.2.1 p.2.2);
                             ret (A2C p.1 p.2.1 p.2.2)) tr0 = Ok ags tr1 →
             agent_id <$> ags = fst <$> l).
  { induction l as [|p l IH]; intros tr0 ags tr1; simpl.
    - by intros [= <- _].
    - intros H. apply bind_Ok in H as (a & tr2 & Ha & H).
      apply bind_Ok in H as (ags' & tr3 & Hags & H).
      injection H as <- _. apply IH in Hags.
      unfold bind, call_, call, ret in Ha. injection Ha as <- _.
      rewrite fmap_cons. simpl. f_equal. exact Hags. }
  intros H. pose proof (Hgen _ _ _ _ H) as Hids.
  rewrite <- (length_fmap agent_id), Hids, fst_enumerate.
  by rewrite length_seq.
Qed.

(** ** One update cycle *)

Lemma Emits_Ok {A} (P : Ev → Prop) (m : Mon A) tr a tr' :
  Emits P m → m tr = Ok a tr' → ∃ evs : list Ev, tr' = tr ++ evs ∧ Forall P evs.
Proof. intros Hm Hok. destruct (Hm tr) as (evs & H & ?). rewrite Hok in H. eauto. Qed.

Lemma Emits_cadence (P : Ev → Prop) interval j num_updates :
  Emits P (cadence interval j num_updates).
Proof.
  unfold cadence. destruct interval as [n|]; [|apply Emits_ret].
  case_bool_decide; [|apply Emits_ret].
  apply Emits_bind; [apply Emits_pymod|]. intros r.
  case_bool_decide; apply Emits_ret.
Qed.

Lemma log_stage_no_phase start j st :
  Emits (λ e, is_phase_call e = false) (log_stage config algorithm start j st).
Proof.
  unfold log_stage. apply Emits_bind; [apply Emits_pymod|]. intros r.
  destruct (_ && _); [|apply Emits_ret].
  apply Emits_bind; [by apply Emits_call|]. intros end_.
  apply Emits_bind.
  { destruct (Qeq_bool _ _); [apply Emits_raise | apply Emits_ret]. }
  intros fps. apply Emits_bind; [by apply Emits_call_|]. intros _.
  apply Emits_bind; [apply Emits_getitem|]. intros reward.
  apply Emits_bind; [by apply Emits_call_|]. intros _.
  apply Emits_bind; [by apply Emits_call_|]. intros _. apply Emits_ret.
Qed.

Lemma checkpoint_no_phase agents save_dir j :
  Emits (λ e, is_phase_call e = false) (checkpoint agents save_dir j).
Proof.
  unfold checkpoint. apply Emits_bind.
  { apply Emits_for_each. intros agent _.
    apply Emits_bind; [by apply Emits_call_|]. intros _. by apply Emits_call_. }
  intros _. apply Emits_bind; [by apply Emits_call|]. intros archive_name.
  apply Emits_bind; [by apply Emits_call_|]. intros _. by apply Emits_call_.
Qed.

Lemma save_stage_no_phase agents save_dir num_updates j :
  Emits (λ e, is_phase_call e = false)
        (save_stage config agents save_dir num_updates j).
Proof.
  unfold save_stage. apply Emits_bind; [apply Emits_cadence|].
  intros [|]; [apply checkpoint_no_phase | apply Emits_ret].
Qed.

(** What [evaluate] does once its environment exists emits only events that
    are not calls of the update phase. *)
Lemma evaluate_loop_rest_any fuel agents (eval_envs : nat) :
  Emits (λ e, is_phase_call e = false)
    (do n_obs <- call (EnvsReset eval_envs) envs_reset;
     do masks <- zeros_column (episodes_per_eval config);
     do all_infos <- evaluate_loop config fuel agents eval_envs masks
       {| ev_obs := n_obs;
          ev_hidden := (λ agent, zeros_hidden (episodes_per_eval config)
                                   (agent_id agent)) <$> agents;
          ev_infos := [] |};
     exec call_ (EnvsClose eval_envs);
     do reward <- getitem (Metrics._squash_info all_infos) "episode_reward";
     call_ (LoggingInfo (MsgEval (length all_infos) reward))).
Proof.
  apply Emits_bind; [by apply Emits_call|]. intros n_obs.
  apply Emits_bind.
  { unfold zeros_column. case_decide; [apply Emits_raise | apply Emits_ret]. }
  intros masks. apply Emits_bind.
  { generalize ({| ev_obs := n_obs;
                   ev_hidden := (λ agent, zeros_hidden (episodes_per_eval config)
                                            (agent_id agent)) <$> agents;
                   ev_infos := [] |}).
    induction fuel as [|fuel IH]; intros s; simpl.
    - destruct (evaluate_guard config s); [apply Emits_timeout | apply Emits_ret].
    - destruct (evaluate_guard config s); [|apply Emits_ret].
      apply Emits_bind; [|apply IH].
      unfold evaluate_body. apply Emits_bind.
      { apply Emits_collect. intros p _.
        apply Emits_bind; [apply Emits_index|]. intros obs. by apply Emits_call. }
      intros outs. apply Emits_bind; [apply Emits_unzip4|]. intros un.
      apply Emits_bind; [by apply Emits_call|]. intros r. apply Emits_ret. }
  intros all. apply Emits_bind; [by apply Emits_call_|]. intros _.
  apply Emits_bind; [apply Emits_getitem|]. intros reward. by apply Emits_call_.
Qed.

Lemma evaluate_no_phase fuel agents monitor_dir :
  Emits (λ e, is_phase_call e = false) (evaluate config fuel agents monitor_dir).
Proof.
  unfold evaluate.
  apply Emits_bind; [by apply Emits_make_vec_envs|]. intros eval_envs.
  apply evaluate_loop_rest_any.
Qed.

Lemma eval_stage_no_phase fuel agents eval_dir num_updates j :
  Emits (λ e, is_phase_call e = false)
        (eval_stage config fuel agents eval_dir num_updates j).
Proof.
  unfold eval_stage. apply Emits_bind; [apply Emits_cadence|].
  intros [|]; [|apply Emits_ret].
  unfold run_evaluation. apply Emits_bind; [apply evaluate_no_phase|]. intros _.
  apply Emits_bind; [by apply Emits_call|]. intros videos.
  apply Emits_for_each. intros iv _. by apply Emits_call_.
Qed.

(** The stages of one iteration, in the order of the source. *)
Lemma update_cycle_inv fuel agents envs writer save_dir eval_dir start
    num_updates st j tr st' tr' :
  update_cycle config algorithm fuel agents envs writer save_dir eval_dir start
    num_updates st j tr = Ok st' tr' →
  ∃ window tr1 tr2 tr3 tr4,
    rollout algorithm agents envs (all_infos st) tr = Ok window tr1
    ∧ returns_and_updates agents writer j tr1 = Ok tt tr2
    ∧ log_stage config algorithm start j
        {| all_infos := window;
           environment_steps :=
             (environment_steps st + num_steps algorithm * num_envs algorithm)%Z |}
        tr2 = Ok st' tr3
    ∧ save_stage config agents save_dir num_updates j tr3 = Ok tt tr4
    ∧ eval_stage config fuel agents eval_dir num_updates j tr4 = Ok tt tr'.
Proof.
  unfold update_cycle. intros H.
  apply bind_Ok in H as (window & tr1 & Hroll & H).
  apply bind_Ok in H as ([] & tr2 & Hupd & H).
  apply bind_Ok in H as (st1 & tr3 & Hlog & H).
  apply bind_Ok in H as ([] & tr4 & Hsave & H).
  apply bind_Ok in H as ([] & tr5 & Heval & H).
  injection H as <- <-. eauto 10.
Qed.

(** C3: in every update cycle whose rollout completes, the orchestrator
    makes exactly H = [num_steps] environment steps, then calls
    [compute_returns] for every agent, then calls [update] for every agent in
    ascending [agent_id] order, each call receiving the storages of all
    agents in agent order, and only after all updates calls [after_update]
    on every agent's storage.  What follows in the cycle (logging,
    checkpoint, evaluation) makes none of these calls. *)
Theorem update_cycle_order fuel tr0 tr0' agents envs writer save_dir eval_dir
    start num_updates st j tr window tr1 :
  make_agents tr0 = Ok agents tr0' →
  rollout algorithm agents envs (all_infos st) tr = Ok window tr1 →
  let ids := seq 0 (length agents) in
  ∃ rollout_evs update_evs rest : list Ev,
    tr1 = tr ++ rollout_evs
    ∧ trace_of (update_cycle config algorithm fuel agents envs writer save_dir
                  eval_dir start num_updates st j tr)
      = tr ++ rollout_evs
           ++ (ComputeReturns <$> ids)
           ++ update_evs
           ++ (StorageAfterUpdate <$> ids)
           ++ rest
    ∧ length (filter (λ e, is_envs_step e = true) rollout_evs)
      = Z.to_nat (num_steps algorithm)
    ∧ Forall (λ e, is_phase_call e = false) rollout_evs
    ∧ updates_of update_evs = (λ i, (i, ids)) <$> ids
    ∧ Forall (λ e, is_update_or_scalar e = true) update_evs
    ∧ Forall (λ e, is_phase_call e = false) rest.
Proof.
  intros Hagents Hroll ids.
  apply make_agents_ids in Hagents. fold ids in Hagents.
  unfold update_cycle. rewrite (bind_known _ _ _ _ _ Hroll).
  apply rollout_events in Hroll as (rollout_evs & -> & Hsteps & Hroll).
  destruct (returns_and_updates_Ok agents writer j (tr ++ rollout_evs))
    as (update_evs & Hupd & Hupdates & Hscal).
  rewrite (bind_known _ _ _ _ _ Hupd).
  match goal with
  | |- context [trace_of (?m ?t)] =>
      assert (Hrest : Emits (λ e, is_phase_call e = false) m)
  end.
  { apply Emits_bind; [apply log_stage_no_phase|]. intros st'.
    apply Emits_bind; [apply save_stage_no_phase|]. intros _.
    apply Emits_bind; [apply eval_stage_no_phase|]. intros _. apply Emits_ret. }
  destruct (Hrest ((tr ++ rollout_evs)
                   ++ (ComputeReturns ∘ agent_id <$> agents)
                   ++ update_evs
                   ++ (StorageAfterUpdate ∘ agent_id <$> agents)))
    as (rest & Htrace & Hnone).
  exists rollout_evs, update_evs, rest. rewrite Htrace.
  rewrite !list_fmap_compose, Hagents.
  split_and!; try done.
  - by rewrite <- !app_assoc.
  - rewrite Hupdates, Hagents.
    trans ((λ i, (i, ids)) <$> (agent_id <$> agents)); [|by rewrite Hagents].
    by rewrite <- list_fmap_compose.
Qed.

(** ** The log point *)

Lemma pymod_Ok a b r (tr tr' : list Ev) :
  pymod a b tr = Ok r tr' ↔ b ≠ 0%Z ∧ r = (a `mod` b)%Z ∧ tr' = tr.
Proof.
  unfold pymod. case_decide; unfold raise, ret; split.
  - done.
  - by intros [? _].
  - by intros [= <- <-].
  - by intros (_ & -> & ->).
Qed.

Lemma floordiv_Ok a b q (tr tr' : list Ev) :
  floordiv a b tr = Ok q tr' ↔ b ≠ 0%Z ∧ q = (a `div` b)%Z ∧ tr' = tr.
Proof.
  unfold floordiv. case_decide; unfold raise, ret; split.
  - done.
  - by intros [? _].
  - by intros [= <- <-].
  - by intros (_ & -> & ->).
Qed.

Lemma getitem_Ok m key v (tr tr' : list Ev) :
  getitem m key tr = Ok v tr' ↔ m !! key = Some v ∧ tr' = tr.
Proof.
  unfold getitem. destruct (m !! key); unfold raise, ret; split.
  - by intros [= <- <-].
  - by intros [[= ->] ->].
  - done.
  - by intros [? _].
Qed.

Lemma log_stage_inv start j st tr st' tr' :
  log_stage config algorithm start j st tr = Ok st' tr' →
  log_interval config ≠ 0%Z
  ∧ ∃ evs : list Ev,
      tr' = tr ++ evs
      ∧ (((j `mod` log_interval config)%Z = 0%Z ∧ (1 < length (all_infos st))%nat
          ∧ flush_events_are algorithm start j st tr evs
          ∧ st' = {| all_infos := []; environment_steps := environment_steps st |})
         ∨ (¬ ((j `mod` log_interval config)%Z = 0%Z
               ∧ (1 < length (all_infos st))%nat)
            ∧ evs = [] ∧ st' = st)).
Proof.
  unfold log_stage. intros H.
  apply bind_Ok in H as (r & ? & (Hli & -> & ->)%pymod_Ok & H).
  split; [done|].
  destruct (bool_decide (_ = 0%Z)) eqn:Hr;
    [destruct (bool_decide (1 < _)%nat) eqn:Hn|]; simpl in H.
  - apply bool_decide_eq_true in Hr, Hn.
    rewrite bind_call in H.
    apply bind_Ok in H as (fps & tr1 & Hfps & H).
    destruct (Qeq_bool _ _); [done|]. injection Hfps as <- <-.
    rewrite bind_call_ in H.
    apply bind_Ok in H as (reward & ? & [Hrew ->]%getitem_Ok & H).
    rewrite !bind_call_ in H. injection H as <- <-.
    eexists. split; [by rewrite <- !app_assoc|].
    left. split_and!; try done. exists reward. done.
  - apply bool_decide_eq_true in Hr. apply bool_decide_eq_false in Hn.
    injection H as <- <-. exists []. rewrite app_nil_r. split; [done|].
    right. split_and!; try done. by intros [_ ?].
  - apply bool_decide_eq_false in Hr.
    injection H as <- <-. exists []. rewrite app_nil_r. split; [done|].
    right. split_and!; try done. by intros [? _].
Qed.

(** C5, as amended: at the log point of update j, if it completes, the
    aggregated metrics are sent to the metrics sink if and only if
    j % log_interval == 0 and the info window holds at least two entries;
    the window is cleared right after each such flush and left alone
    otherwise. *)
Theorem log_stage_flush start j st tr st' tr' :
  log_stage config algorithm start j st tr = Ok st' tr' →
  ∃ evs : list Ev,
    tr' = tr ++ evs
    ∧ ((∃ m, WandbLog m ∈ evs) ↔
       ((j `mod` log_interval config)%Z = 0%Z ∧ (2 ≤ length (all_infos st))%nat))
    ∧ ((∃ m, WandbLog m ∈ evs) →
       last evs = Some (WandbLog
                          (<["environment_steps" := inject_Z (environment_steps st)]>
                             (Metrics._squash_info (all_infos st))))
       ∧ all_infos st' = [])
    ∧ (¬ (∃ m, WandbLog m ∈ evs) → evs = [] ∧ st' = st).
Proof.
  intros H. apply log_stage_inv in H as (_ & evs & -> & Hcases).
  exists evs. split; [done|].
  destruct Hcases as [(Hj & Hn & (reward & Hrew & ->) & ->)
                     |(Hnot & -> & ->)].
  - assert (Hin : ∀ e1 e2 e3 m,
              ∃ m', WandbLog (Tensor:=Tensor) (Space:=Space) m'
                    ∈ [e1; e2; e3; WandbLog m]).
    { intros. eexists. do 3 apply list_elem_of_further. apply list_elem_of_here. }
    split_and!.
    + split; [intros _; split; [done|lia] | intros; apply Hin].
    + done.
    + intros Hno. destruct Hno. apply Hin.
  - split_and!.
    + split.
      * intros [m Hm]. by apply elem_of_nil in Hm.
      * intros [? ?]. destruct Hnot. split; [done|lia].
    + intros [m Hm]. by apply elem_of_nil in Hm.
    + done.
Qed.

(** ** The step counters *)

Lemma fold_for_app {A St} (l1 l2 : list A) (body : St → A → Mon St) s tr :
  fold_for (l1 ++ l2) body s tr
  = bind (fold_for l1 body s) (fold_for l2 body) tr.
Proof.
  revert s tr. induction l1 as [|x l1 IH]; intros s tr; simpl.
  - done.
  - rewrite bind_assoc. apply bind_ext. intros s1 tr1. apply IH.
Qed.

Lemma update_cycle_environment_steps fuel agents envs writer save_dir eval_dir
    start num_updates st j tr st' tr' :
  update_cycle config algorithm fuel agents envs writer save_dir eval_dir start
    num_updates st j tr = Ok st' tr' →
  environment_steps st'
  = (environment_steps st + num_steps algorithm * num_envs algorithm)%Z.
Proof.
  intros H. apply update_cycle_inv in H
    as (window & tr1 & tr2 & tr3 & tr4 & _ & _ & Hlog & _).
  apply log_stage_inv in Hlog as (_ & evs & _ & [(_ & _ & _ & ->)|(_ & _ & ->)]);
    done.
Qed.

(** After [n] completed updates the counter holds [n] rollouts' worth of
    environment steps. *)
Lemma environment_steps_after fuel agents envs writer save_dir eval_dir start
    num_updates (n : nat) tr0 st tr :
  fold_for (seqZ 1 (Z.of_nat n))
    (update_cycle config algorithm fuel agents envs writer save_dir eval_dir
       start num_updates)
    {| all_infos := []; environment_steps := 0 |} tr0 = Ok st tr →
  environment_steps st
  = (Z.of_nat n * (num_steps algorithm * num_envs algorithm))%Z.
Proof.
  revert st tr. induction n as [|n IH]; intros st tr.
  - rewrite seqZ_nil by lia. simpl. intros [= <- _]. simpl. lia.
  - rewrite seqZ_S, fold_for_app. intros H.
    apply bind_Ok in H as (st1 & tr1 & Hpre & Hlast).
    apply IH in Hpre. simpl in Hlast.
    apply bind_Ok in Hlast as (st2 & tr2 & Hcycle & Hret).
    injection Hret as <- _.
    apply update_cycle_environment_steps in Hcycle. lia.
Qed.

(** C10: at the log point after update cycle j (reached after cycles
    1..j-1 have completed), the step count printed as "num timesteps", which
    is also the numerator of the FPS figure, is (j+1)*num_envs*num_steps,
    while the [environment_steps] value sent to the metrics sink is
    j*num_envs*num_steps; they differ by one cycle's worth of steps. *)
Theorem log_point_step_counts fuel agents envs writer save_dir eval_dir start
    num_updates (j : Z) tr0 st tr st' tr' :
  (1 ≤ j)%Z →
  fold_for (seqZ 1 (j - 1))
    (update_cycle config algorithm fuel agents envs writer save_dir eval_dir
       start num_updates)
    {| all_infos := []; environment_steps := 0 |} tr0 = Ok st tr →
  update_cycle config algorithm fuel agents envs writer save_dir eval_dir start
    num_updates st j tr = Ok st' tr' →
  let cycle := (num_envs algorithm * num_steps algorithm)%Z in
  ∃ (window : list (gmap string pyval)) (tr1 tr2 evs post : list Ev),
    rollout algorithm agents envs (all_infos st) tr = Ok window tr1
    ∧ returns_and_updates agents writer j tr1 = Ok tt tr2
    ∧ log_stage config algorithm start j
        {| all_infos := window; environment_steps := (j * cycle)%Z |} tr2
      = Ok st' (tr2 ++ evs)
    ∧ tr' = tr2 ++ evs ++ post
    ∧ ((∃ m, WandbLog m ∈ evs) ↔
       ((j `mod` log_interval config)%Z = 0%Z ∧ (2 ≤ length window)%nat))
    ∧ ((∃ m, WandbLog m ∈ evs) →
       ∃ fps reward m,
         evs = [ TimeTime;
                 LoggingInfo (MsgUpdates j ((j + 1) * cycle)%Z fps);
                 LoggingInfo (MsgTrainReward (length window) reward);
                 WandbLog m ]
         ∧ fps = py_int (inject_Z ((j + 1) * cycle)
                         / (time_time (tr2 ++ [TimeTime]) - start))
         ∧ m !! "environment_steps" = Some (inject_Z (j * cycle))
         ∧ ((j + 1) * cycle - j * cycle = cycle)%Z).
Proof.
  intros Hj Hpre Hcycle cycle.
  replace (j - 1)%Z with (Z.of_nat (Z.to_nat (j - 1))) in Hpre by lia.
  apply environment_steps_after in Hpre. rewrite Z2Nat.id in Hpre by lia.
  apply update_cycle_inv in Hcycle
    as (window & tr1 & tr2 & tr3 & tr4 & Hroll & Hupd & Hlog & Hsave & Heval).
  replace (environment_steps st + num_steps algorithm * num_envs algorithm)%Z
    with (j * cycle)%Z in Hlog by (unfold cycle; rewrite Hpre; ring).
  eapply Emits_Ok in Hsave as (evs4 & -> & _); [|apply save_stage_no_phase].
  eapply Emits_Ok in Heval as (evs5 & -> & _); [|apply eval_stage_no_phase].
  pose proof Hlog as Hlog'.
  apply log_stage_inv in Hlog' as (_ & evs & -> & Hcases).
  exists window, tr1, tr2, evs, (evs4 ++ evs5).
  split; [done|]. split; [done|].
  split; [done|]. split; [by rewrite <- !app_assoc|].
  destruct Hcases as [(Hmod & Hn & (reward & Hrew & ->) & _)
                     |(Hnot & -> & _)]; simpl in *.
  - assert (Hin : ∀ e1 e2 e3 m,
              ∃ m', WandbLog (Tensor:=Tensor) (Space:=Space) m'
                    ∈ [e1; e2; e3; WandbLog m]).
    { intros. eexists. do 3 apply list_elem_of_further. apply list_elem_of_here. }
    split; [split; [intros _; split; [done|lia] | intros; apply Hin]|].
    intros _. eexists _, reward, _.
    replace ((j + 1) * cycle)%Z
      with ((j + 1) * num_envs algorithm * num_steps algorithm)%Z
      by (unfold cycle; lia).
    split; [reflexivity|]. split_and!.
    + reflexivity.
    + apply lookup_insert_eq.
    + lia.
  - split; [|by intros [m Hm%elem_of_nil]].
    split; [by intros [m Hm%elem_of_nil]|].
    intros [? ?]. destruct Hnot. split; [done|lia].
Qed.

(** ** Checkpoints *)

Lemma endswith_slash_cons c s :
  endswith_slash (String c s)
  = match s with
    | EmptyString => bool_decide (c = "/"%char)
    | _ => endswith_slash s
    end.
Proof. by destruct s. Qed.

Lemma endswith_slash_app s t :
  t ≠ "" → endswith_slash (s +:+ t) = endswith_slash t.
Proof.
  intros Ht. induction s as [|c s IH]; [done|].
  change (String c s +:+ t) with (String c (s +:+ t)).
  rewrite endswith_slash_cons, IH.
  destruct (s +:+ t) eqn:Hst; [|done].
  destruct s; [|done]. simpl in Hst. by subst.
Qed.

Lemma pretty_N_go_no_slash x s :
  endswith_slash s = false → endswith_slash (pretty_N_go x s) = false.
Proof.
  revert s. induction (N.lt_wf_0 x) as [x _ IH]. intros s Hs.
  destruct (decide (x = 0)%N) as [->|Hx]; [by rewrite pretty_N_go_0|].
  rewrite pretty_N_go_step by lia. apply IH.
  - apply N.div_lt; lia.
  - rewrite endswith_slash_cons. destruct s; [|done].
    apply bool_decide_eq_false. unfold pretty_N_char.
    by repeat case_match.
Qed.

Lemma pretty_N_no_slash (x : N) : endswith_slash (pretty x) = false.
Proof.
  unfold pretty, pretty_N. case_decide; [done|].
  by apply pretty_N_go_no_slash.
Qed.

Lemma pretty_Z_no_slash (x : Z) : endswith_slash (pretty x) = false.
Proof.
  destruct x as [|x|x]; unfold pretty, pretty_Z; [done| |].
  - apply pretty_N_no_slash.
  - change ("-" +:+ pretty x) with (String "-" (pretty x)).
    rewrite endswith_slash_cons.
    pose proof (pretty_N_no_slash (Npos x)) as H.
    change (pretty (Npos x)) with (pretty x) in H.
    by destruct (pretty x).
Qed.

Lemma string_app_assoc (s t u : string) : (s +:+ t) +:+ u = s +:+ t +:+ u.
Proof.
  induction s as [|c s IH]; [done|].
  change (String c ((s +:+ t) +:+ u) = String c (s +:+ t +:+ u)). by f_equal.
Qed.

(** The directory of a checkpoint cycle is never empty and never ends with a
    separator, whatever [save_dir] is. *)
Lemma cur_save_dir_shape save_dir j :
  ∃ prefix, path_join save_dir (u_name j) = prefix +:+ u_name j
            ∧ endswith_slash (path_join save_dir (u_name j)) = false
            ∧ path_join save_dir (u_name j) ≠ "".
Proof.
  assert (Hu : u_name j = String "u" (pretty j)) by done.
  assert (Hne : u_name j ≠ "") by (by rewrite Hu).
  assert (Hend : endswith_slash (u_name j) = false).
  { rewrite Hu, endswith_slash_cons.
    pose proof (pretty_Z_no_slash j). by destruct (pretty j). }
  assert (Hgen : ∀ prefix, endswith_slash (prefix +:+ u_name j) = false
                           ∧ prefix +:+ u_name j ≠ "").
  { intros prefix. split; [by rewrite endswith_slash_app|].
    rewrite Hu. by destruct prefix. }
  assert (Hs : startswith_slash (u_name j) = false) by (by rewrite Hu).
  unfold path_join. rewrite Hs.
  destruct (_ || _).
  - exists save_dir. split; [done|]. apply Hgen.
  - exists (save_dir +:+ "/").
    rewrite <- string_app_assoc. split; [done|]. apply Hgen.
Qed.

Lemma path_join_child dir name :
  dir ≠ "" → endswith_slash dir = false → startswith_slash name = false →
  path_join dir name = dir +:+ "/" +:+ name.
Proof.
  intros Hne Hend Hstart. unfold path_join.
  by rewrite Hstart, Hend, bool_decide_eq_false_2.
Qed.

Lemma string_app_inj_l (s t1 t2 : string) : s +:+ t1 = s +:+ t2 → t1 = t2.
Proof. induction s as [|c s IH]; [done|]. simpl. intros [= H]. auto. Qed.

Lemma save_loop_Ok cur_save_dir (agents : list (Agent Space)) (tr : list Ev) :
  cur_save_dir ≠ "" → endswith_slash cur_save_dir = false →
  for_each agents (λ agent,
      let save_at := path_join cur_save_dir (agent_name (agent_id agent)) in
      exec call_ (Makedirs save_at);
      call_ (AgentSave (agent_id agent) save_at)) tr
  = Ok tt (tr ++ save_events cur_save_dir agents).
Proof.
  intros Hne Hend. revert tr.
  induction agents as [|agent agents IH]; intros tr; cbn [for_each].
  - unfold ret, save_events. simpl. by rewrite app_nil_r.
  - rewrite bind_assoc. cbv zeta. rewrite bind_call_.
    rewrite (bind_known _ _ _ tt
               ((tr ++ [Makedirs (path_join cur_save_dir
                                    (agent_name (agent_id agent)))])
                ++ [AgentSave (agent_id agent)
                      (path_join cur_save_dir (agent_name (agent_id agent)))]))
      by done.
    rewrite IH. rewrite (path_join_child cur_save_dir) by done.
    unfold save_events. cbn [flat_map]. by rewrite <- !app_assoc.
Qed.

(** The calls of a checkpoint cycle, in order. *)
Lemma checkpoint_Ok agents save_dir j (tr : list Ev) :
  let cur_save_dir := path_join save_dir (u_name j) in
  let saves := save_events cur_save_dir agents in
  let archive := MakeArchive cur_save_dir "xztar" save_dir (u_name j) in
  checkpoint agents save_dir j tr
  = Ok tt (tr ++ saves
              ++ [ archive;
                   Rmtree cur_save_dir;
                   LogArtifact (make_archive (tr ++ saves ++ [archive])) None ]).
Proof.
  intros cur_save_dir saves archive.
  destruct (cur_save_dir_shape save_dir j) as (prefix & Hprefix & Hend & Hne).
  unfold checkpoint. fold cur_save_dir.
  rewrite (bind_known _ _ _ _ _ (save_loop_Ok cur_save_dir agents tr Hne Hend)).
  rewrite bind_call, !bind_call_. fold archive saves.
  unfold call_, call. by rewrite <- !app_assoc.
Qed.

(** C7: every checkpoint cycle creates, for each agent, the subdirectory
    [agent<id>] of the cycle directory [save_dir/u<j>] and saves that agent's
    parameters into it; then it archives the cycle directory (the entry
    [u<j>] under [save_dir]) into one xz-compressed tar file, and then
    deletes the cycle directory.  Distinct agents get distinct
    subdirectories. *)
Theorem checkpoint_layout agents save_dir j (tr : list Ev) :
  let cur_save_dir := path_join save_dir (u_name j) in
  let save_at := λ agent, cur_save_dir +:+ "/" +:+ agent_name (agent_id agent) in
  let saves :=
    flat_map (λ agent, [Makedirs (save_at agent);
                        AgentSave (agent_id agent) (save_at agent)]) agents in
  let archive := MakeArchive cur_save_dir "xztar" save_dir (u_name j) in
  checkpoint agents save_dir j tr
  = Ok tt (tr ++ saves
              ++ [ archive;
                   Rmtree cur_save_dir;
                   LogArtifact (make_archive (tr ++ saves ++ [archive])) None ])
  ∧ (∃ prefix, cur_save_dir = prefix +:+ u_name j)
  ∧ (∀ a b : Agent Space, save_at a = save_at b → agent_id a = agent_id b).
Proof.
  intros cur_save_dir save_at saves archive.
  destruct (cur_save_dir_shape save_dir j) as (prefix & Hprefix & Hend & Hne).
  split_and!.
  - apply checkpoint_Ok.
  - by exists prefix.
  - intros a b Hab. unfold save_at in Hab.
    apply string_app_inj_l in Hab. unfold agent_name in Hab.
    apply (string_app_inj_l "/agent") in Hab.
    by apply (inj pretty) in Hab.
Qed.

(** ** Cadences *)

Lemma cadence_Ok n j num_updates (tr : list Ev) :
  n ≠ 0%Z → (1 ≤ j)%Z →
  cadence (Some n) j num_updates tr
  = Ok (bool_decide ((j `mod` n)%Z = 0%Z ∨ j = num_updates)) tr.
Proof.
  intros Hn Hj. unfold cadence.
  rewrite bool_decide_eq_true_2 by lia.
  unfold pymod. rewrite decide_False by done. rewrite bind_ret.
  destruct (decide ((j `mod` n)%Z = 0%Z)) as [Hr|Hr].
  - rewrite (bool_decide_eq_true_2 _ Hr). unfold ret.
    by rewrite (bool_decide_eq_true_2 (_ ∨ _)) by auto.
  - rewrite (bool_decide_eq_false_2 _ Hr). unfold ret. f_equal.
    apply bool_decide_ext. tauto.
Qed.

(** ** Termination of the evaluation loop *)








(** What [evaluate] does after its loop: close the environment, squash the
    infos, report the mean episode reward. *)
Lemma evaluate_finish (eval_envs : nat) all (tr : list Ev) :
  (exec call_ (EnvsClose eval_envs);
   do reward <- getitem (Metrics._squash_info all) "episode_reward";
   call_ (LoggingInfo (MsgEval (length all) reward))) tr
  = match Metrics._squash_info all !! "episode_reward" with
    | Some reward =>
        Ok tt (tr ++ [EnvsClose eval_envs;
                      LoggingInfo (MsgEval (length all) reward)])
    | None => Raise (KeyError "episode_reward") (tr ++ [EnvsClose eval_envs])
    end.
Proof.
  rewrite bind_call_. unfold getitem.
  destruct (Metrics._squash_info all !! "episode_reward") as [reward|].
  - rewrite bind_ret. unfold call_, call. by rewrite <- app_assoc.
  - done.
Qed.

Lemma evaluate_unfold fuel agents monitor_dir (tr : list Ev) :
  (0 ≤ episodes_per_eval config)%Z →
  let E := episodes_per_eval config in
  let h := length tr in
  let tr0 := tr ++ [MakeVecEnvs h E (Some monitor_dir); EnvsReset h] in
  evaluate config fuel agents monitor_dir tr
  = bind (evaluate_loop config fuel agents h (replicate (Z.to_nat E) [0%Q])
            {| ev_obs := envs_reset tr0;
               ev_hidden := (λ agent, zeros_hidden E (agent_id agent)) <$> agents;
               ev_infos := [] |})
         (λ all, exec call_ (EnvsClose h);
                 do reward <- getitem (Metrics._squash_info all) "episode_reward";
                 call_ (LoggingInfo (MsgEval (length all) reward)))
         tr0.
Proof.
  intros HE E h tr0. unfold evaluate.
  rewrite (bind_known _ _ _ h (tr ++ [MakeVecEnvs h E (Some monitor_dir)]))
    by done.
  rewrite bind_call. unfold zeros_column.
  rewrite decide_False by lia. rewrite bind_ret.
  replace ((tr ++ [MakeVecEnvs h E (Some monitor_dir)]) ++ [EnvsReset h])
    with tr0 by (unfold tr0; by rewrite <- app_assoc).
  done.
Qed.


(** ** Storages during the update phase *)

Lemma storages_read_updates (evs : list Ev) :
  concat (storages_read <$> evs) = concat (snd <$> updates_of evs).
Proof.
  unfold updates_of. induction evs as [|e evs IH]; [done|].
  destruct e; simpl; try exact IH. f_equal. exact IH.
Qed.

Lemma storage_effects_none horizon (evs : list Ev) (S : gmap nat (Storage Tensor)) :
  Forall (λ e, is_update_or_scalar e = true) evs →
  storage_effects horizon evs S = Some S.
Proof.
  induction 1 as [|e evs He _ IH]; [done|].
  destruct e; try discriminate He; simpl; exact IH.
Qed.

Lemma storage_effect_frame horizon (e : Ev) (S S' : gmap nat (Storage Tensor)) k :
  storage_effect horizon e S = Some S' →
  k ∉ storages_written e → S' !! k = S !! k.
Proof.
  intros He Hk.
  destruct e; simpl in *; try (by injection He as <-);
    rewrite not_elem_of_cons in Hk; destruct Hk as [Hk _];
    match type of He with
    | context [S !! ?i] => destruct (S !! i) as [st|]
    end; simpl in He; try done.
  - injection He as <-. by rewrite lookup_insert_ne.
  - by injection He as <-.
  - destruct (storage_insert horizon args st); simpl in He; [|done].
    injection He as <-. by rewrite lookup_insert_ne.
  - injection He as <-. by rewrite lookup_insert_ne.
  - injection He as <-. by rewrite lookup_insert_ne.
Qed.

(** C8: during an update cycle no [update] call changes any storage; every
    call changes at most the storage it is made on; the rollout's inserts go
    to each agent's own storage, once per agent, [compute_returns] and
    [after_update] are called on each agent's own storage, and nothing else
    in the update phase writes a storage; and whatever the order of the
    updates, every [update] is handed the storages of all agents, so the
    storages read are the same, and no storage is changed. *)
Theorem shared_experience_read_only (horizon : nat) agents envs writer j :
  let ids := agent_id <$> agents in
  (∀ i storages (S : gmap nat (Storage Tensor)),
     storage_effect horizon (Update (Space:=Space) i storages) S = Some S)
  ∧ (∀ (e : Ev) (S S' : gmap nat (Storage Tensor)) k,
       storage_effect horizon e S = Some S' →
       k ∉ storages_written e → S' !! k = S !! k)
  ∧ (∀ window step (tr : list Ev) window' tr',
       rollout_step agents envs window step tr = Ok window' tr' →
       ∃ acts inserts : list Ev,
         tr' = tr ++ acts ++ inserts
         ∧ Forall (λ e, storages_written e = []) acts
         ∧ storages_written <$> inserts = (λ i, [i]) <$> ids)
  ∧ (∀ tr : list Ev,
       ∃ update_evs : list Ev,
         returns_and_updates agents writer j tr
         = Ok tt (tr ++ (ComputeReturns <$> ids) ++ update_evs
                     ++ (StorageAfterUpdate <$> ids))
         ∧ Forall (λ e, storages_written e = []) update_evs
         ∧ ∀ S : gmap nat (Storage Tensor),
             storage_effects horizon update_evs S = Some S)
  ∧ (∀ order (tr : list Ev),
       order ≡ₚ agents →
       ∃ evs evs0 : list Ev,
         update_loop order agents writer j tr = Ok tt (tr ++ evs)
         ∧ update_loop agents agents writer j tr = Ok tt (tr ++ evs0)
         ∧ updates_of evs = (λ agent, (agent_id agent, ids)) <$> order
         ∧ concat (storages_read <$> evs) = concat (storages_read <$> evs0)
         ∧ ∀ S : gmap nat (Storage Tensor),
             storage_effects horizon evs S = Some S).
Proof.
  intros ids. split_and!.
  - done.
  - apply storage_effect_frame.
  - intros window step tr window' tr' H.
    apply rollout_step_inv in H
      as (actions & bad_masks & inserts & -> & _ & Hins & _).
    exists (act_events agents step ++ [EnvsStep envs actions]), inserts.
    split; [by rewrite <- !app_assoc|]. split.
    + apply Forall_app. split; [|by repeat constructor].
      unfold act_events. apply Forall_fmap. by apply Forall_true.
    + unfold ids. clear -Hins.
      induction Hins as [|agent e ? ? (args & -> & _) _ IH]; [done|].
      rewrite !fmap_cons. by rewrite IH.
  - intros tr.
    destruct (returns_and_updates_Ok agents writer j tr)
      as (update_evs & Hret & _ & Hscal).
    exists update_evs. rewrite !list_fmap_compose in Hret.
    split; [done|]. split.
    + eapply Forall_impl; [exact Hscal|]. intros e He. by destruct e.
    + intros S. by apply storage_effects_none.
  - intros order tr Hperm.
    destruct (update_loop_Ok order agents writer j tr) as (evs & Hloop & Hupd & Hscal).
    destruct (update_loop_Ok agents agents writer j tr)
      as (evs0 & Hloop0 & Hupd0 & _).
    exists evs, evs0. split_and!; try done.
    + rewrite !storages_read_updates, Hupd, Hupd0.
      assert (Hconst : ∀ l : list (Agent Space),
                snd <$> ((λ agent, (agent_id agent, agent_id <$> agents)) <$> l)
                = replicate (length l) ids).
      { induction l as [|a l IH]; [done|]. rewrite !fmap_cons, IH. done. }
      rewrite !Hconst. by rewrite (Permutation_length Hperm).
    + intros S. by apply storage_effects_none.
Qed.

(** ** [main] and its update cycles *)

(** Every update index of a completed run of the update loop names a cycle
    that was entered after the cycles before it had completed, and that
    completed itself. *)
Lemma update_loop_all_cycles fuel agents envs writer save_dir eval_dir start
    num_updates (tr0 : list Ev) st_end tr_end j :
  update_loop_all config algorithm fuel agents envs writer save_dir eval_dir
    start num_updates tr0 = Ok st_end tr_end →
  (1 ≤ j ≤ num_updates)%Z →
  ∃ st tr st' tr',
    fold_for (seqZ 1 (j - 1))
      (update_cycle config algorithm fuel agents envs writer save_dir eval_dir
         start num_updates)
      {| all_infos := []; environment_steps := 0 |} tr0 = Ok st tr
    ∧ update_cycle config algorithm fuel agents envs writer save_dir eval_dir
        start num_updates st j tr = Ok st' tr'.
Proof.
  unfold update_loop_all. intros H Hj.
  assert (Hs : seqZ 1 num_updates
               = seqZ 1 (j - 1) ++ j :: seqZ (Z.succ j) (num_updates - j)).
  { replace num_updates with ((j - 1) + (1 + (num_updates - j)))%Z at 1 by lia.
    rewrite seqZ_app by lia. f_equal.
    rewrite seqZ_cons by lia. f_equal; [lia|]. f_equal; lia. }
  rewrite Hs, fold_for_app in H.
  apply bind_Ok in H as (st & tr & Hpre & H).
  cbn [fold_for] in H.
  apply bind_Ok in H as (st' & tr' & Hcycle & _).
  eauto 10.
Qed.

(** A completed run of [main] built its agents, ran the update loop to its
    end and closed the training environment last. *)
Lemma main_inv fuel save_dir eval_dir loss_dir (tr : list Ev) tr' :
  main config algorithm fuel save_dir eval_dir loss_dir tr = Ok tt tr' →
  ∃ agents envs writer start q tr1 tr2 tr3 st_end tr_end,
    make_agents tr1 = Ok agents tr2
    ∧ q = (py_int (num_env_steps config) `div` num_steps algorithm)%Z
    ∧ update_loop_all config algorithm fuel agents envs writer
        (format_dir save_dir) (format_dir eval_dir) start
        (q `div` num_envs algorithm)%Z tr3 = Ok st_end tr_end
    ∧ tr' = tr_end ++ [EnvsClose envs].
Proof.
  unfold main. intros H.
  apply bind_Ok in H as (writer & trw & _ & H).
  rewrite !bind_call_ in H.
  apply bind_Ok in H as (envs & tre & _ & H).
  apply bind_Ok in H as (agents & tra & Hagents & H).
  rewrite bind_call in H.
  apply bind_Ok in H as ([] & trb & _ & H).
  apply bind_Ok in H as ([] & trc & _ & H).
  rewrite bind_call in H.
  apply bind_Ok in H as (q & trd & Hq & H).
  apply bind_Ok in H as (num_updates & tre' & Hn & H).
  apply bind_Ok in H as (st_end & tr_end & Hloop & H).
  unfold call_, call in H. simpl in H. injection H as <-.
  apply floordiv_Ok in Hq as (_ & -> & ->).
  apply floordiv_Ok in Hn as (_ & -> & ->).
  eauto 15.
Qed.

(** C1, as amended: in every environment step of the training rollout that
    completes, each agent's storage receives one insert, and all inserts carry
    the same two mask tensors.  Row k of the mask is [0] exactly when the done
    flag of instance k is set (whether the episode ended naturally or was cut
    by the time limit) and [1] otherwise; row k of the bad mask is [0] exactly
    when the info dict of instance k holds a true value under
    "TimeLimit.truncated" and [1] otherwise. *)
Theorem rollout_step_masks agents envs window step tr window' tr' :
  rollout_step agents envs window step tr = Ok window' tr' →
  ∃ actions bad_masks inserts,
    let pre := tr ++ act_events agents step ++ [EnvsStep envs actions] in
    let r := envs_step pre in
    let masks : list (list Q) := mask_rows (step_done r) in
    tr' = pre ++ inserts
    ∧ Forall2 (inserts_masks masks bad_masks) agents inserts
    ∧ length masks = length (step_done r)
    ∧ length bad_masks = length (step_infos r)
    ∧ (∀ (k : nat) (done_ : bool), step_done r !! k = Some done_ →
         masks !! k = Some (if done_ then [0%Q] else [1%Q]))
    ∧ (∀ (k : nat) info, step_infos r !! k = Some info →
         ∃ t, truncated info = inr t
              ∧ bad_masks !! k = Some (if t then [0%Q] else [1%Q])).
Proof.
  intros H. apply rollout_step_inv in H
    as (actions & bad_masks & inserts & -> & Hbad & Hins & _).
  apply bad_mask_rows_lookup in Hbad as [Hlen Hrows].
  exists actions, bad_masks, inserts. simpl. split_and!; try done.
  - unfold mask_rows. by rewrite length_fmap.
  - intros k d Hk. by rewrite mask_rows_lookup, Hk.
Qed.

End Facts.

(** * Concrete runs *)

Module Runs.
Import Toy.

(** C1, as stated, fails: when the time limit cuts an episode the done flag
    is set, so the inserted mask row is [0] although the episode did not
    terminate naturally. *)
Lemma truncation_clears_mask :
  let w := world 2 [true] [truncated_info 1] in
  let o := rollout_step (oracle := w) agents2 0 [] 0 [] in
  step_done (envs_step (Oracle := w) []) = [true]
  ∧ truncated (truncated_info 1) = inr true
  ∧ ∃ args,
      trace_of o !! 3%nat = Some (StorageInsert 0 args)
      ∧ ins_masks args = [[0%Q]]
      ∧ ins_masks args ≠ [natural_termination_mask true true].
Proof.
  intros w o. split; [reflexivity|]. split; [vm_compute; reflexivity|].
  eexists. split; [vm_compute; reflexivity|]. split; [reflexivity|discriminate].
Qed.

(** One training step with two agents and two instances, the first of which
    is cut by the time limit. *)
Lemma rollout_step_masks_witness :
  let w := world 2 [true; false] [truncated_info 1; ∅] in
  let o := rollout_step (oracle := w) agents2 0 [] 0 [] in
  o = Ok (value_or [] o) (trace_of o)
  ∧ ∃ actions bad_masks inserts,
      trace_of o = act_events agents2 0 ++ [EnvsStep 0 actions] ++ inserts
      ∧ Forall2 (inserts_masks [[0%Q]; [1%Q]] bad_masks) agents2 inserts
      ∧ length bad_masks = 2%nat.
Proof.
  intros w o.
  assert (H : o = Ok (value_or [] o) (trace_of o)) by (vm_compute; reflexivity).
  split; [exact H|].
  destruct (rollout_step_masks (oracle := w) agents2 0 [] 0 [] _ _ H)
    as (actions & bad_masks & inserts & Htr & Hins & _ & Hlen & _).
  exists actions, bad_masks, inserts. split_and!.
  - exact Htr.
  - exact Hins.
  - exact Hlen.
Defined.

(** The first update cycle of two agents in the idle world. *)
Lemma update_cycle_order_witness :
  let init := {| all_infos := []; environment_steps := 0 |} in
  let o0 := make_agents (oracle := idle 2) [] in
  let o1 := rollout (oracle := idle 2) algorithm agents2 0 [] [] in
  let o := update_cycle (oracle := idle 2) config algorithm 0 agents2 0 true
             "save" "eval" 0 4 init 1 [] in
  o0 = Ok agents2 (trace_of o0)
  ∧ o1 = Ok (value_or [] o1) (trace_of o1)
  ∧ ∃ update_evs rest,
      trace_of o = trace_of o1 ++ (ComputeReturns <$> [0; 1]%nat) ++ update_evs
                     ++ (StorageAfterUpdate <$> [0; 1]%nat) ++ rest
      ∧ length (filter (λ e, is_envs_step e = true) (trace_of o1)) = 5%nat
      ∧ updates_of update_evs = [(0, [0; 1]); (1, [0; 1])]%nat.
Proof.
  intros init o0 o1 o.
  assert (H0 : o0 = Ok agents2 (trace_of o0)) by (vm_compute; reflexivity).
  assert (H1 : o1 = Ok (value_or [] o1) (trace_of o1))
    by (vm_compute; reflexivity).
  split; [exact H0|]. split; [exact H1|].
  destruct (update_cycle_order (oracle := idle 2) config algorithm 0 [] _ agents2
              0 true "save" "eval" 0 4 init 1 [] _ _ H0 H1)
    as (rollout_evs & update_evs & rest & Htr1 & Htr & Hsteps & _ & Hupd & _).
  exists update_evs, rest. simpl in Htr1. rewrite Htr1. split_and!.
  - exact Htr.
  - exact Hsteps.
  - exact Hupd.
Defined.

(** C5, as stated, fails: at an update index that is a multiple of
    [log_interval], a window holding a single info dict is not empty, yet
    nothing is sent to the metrics sink and the window is kept. *)
Lemma single_info_not_flushed :
  let st := {| all_infos := [episode_info 1]; environment_steps := 20 |} in
  (2 `mod` log_interval config)%Z = 0%Z
  ∧ all_infos st ≠ []
  ∧ log_stage (oracle := idle 2) config algorithm 0 2 st [] = Ok st [].
Proof. split_and!; [reflexivity | discriminate | reflexivity]. Qed.

(** A log point with two infos in the window at an update index that is a
    multiple of [log_interval]. *)
Lemma log_stage_flush_witness :
  let st := {| all_infos := [episode_info 1; episode_info 3];
               environment_steps := 20 |} in
  let o := log_stage (oracle := idle 2) config algorithm 0 2 st [] in
  o = Ok (value_or st o) (trace_of o)
  ∧ (∃ m, WandbLog m ∈ trace_of o)
  ∧ last (trace_of o)
    = Some (WandbLog (<["environment_steps" := 20%Q]>
                        (Metrics._squash_info (all_infos st))))
  ∧ all_infos (value_or st o) = [].
Proof.
  intros st o.
  assert (H : o = Ok (value_or st o) (trace_of o)) by (vm_compute; reflexivity).
  split; [exact H|].
  destruct (log_stage_flush (oracle := idle 2) config algorithm 0 2 st [] _ _ H)
    as (evs & Htr & Hiff & Hflush & _).
  assert (Hlog : ∃ m, WandbLog (Tensor:=nat) (Space:=unit) m ∈ evs).
  { apply Hiff. split; [reflexivity | simpl; lia]. }
  destruct (Hflush Hlog) as [Hlast Hclear].
  simpl app in Htr. rewrite Htr.
  split_and!; [exact Hlog | exact Hlast | exact Hclear].
Defined.

(** The log point of the second update in the busy world: 30 steps are
    printed, 20 are sent to the metrics sink. *)
Lemma log_point_step_counts_witness :
  let init := {| all_infos := []; environment_steps := 0 |} in
  let cycle := update_cycle (oracle := busy 2) config algorithm 0 agents2 0 true
                 "save" "eval" 0 4 in
  let o1 := fold_for (seqZ 1 (2 - 1)) cycle init [] in
  let o2 := cycle (value_or init o1) 2%Z (trace_of o1) in
  o1 = Ok (value_or init o1) (trace_of o1)
  ∧ o2 = Ok (value_or init o2) (trace_of o2)
  ∧ ∃ fps n reward m,
      [ TimeTime; LoggingInfo (MsgUpdates 2 30 fps);
        LoggingInfo (MsgTrainReward n reward); WandbLog m ]
        `sublist_of` trace_of o2
      ∧ m !! "environment_steps" = Some 20%Q.
Proof.
  intros init cycle o1 o2.
  assert (H1 : o1 = Ok (value_or init o1) (trace_of o1))
    by (vm_compute; reflexivity).
  assert (H2 : o2 = Ok (value_or init o2) (trace_of o2))
    by (vm_compute; reflexivity).
  split; [exact H1|]. split; [exact H2|].
  destruct (log_point_step_counts (oracle := busy 2) config algorithm 0
              agents2 0 true "save" "eval" 0 4 2 [] _ _ _ _
              ltac:(lia) H1 H2)
    as (window & tr1 & tr2 & evs & post & Hroll & _ & _ & Htr & Hiff & Hev).
  assert (Hlen : (2 ≤ length window)%nat).
  { apply (f_equal (λ o, length (value_or [] o))) in Hroll.
    simpl in Hroll. rewrite <- Hroll. clear. vm_compute. lia. }
  destruct Hev as (fps & reward & m & -> & _ & Hm & _).
  { apply Hiff. split; [reflexivity | exact Hlen]. }
  exists fps, (length window), reward, m. split; [|exact Hm].
  rewrite Htr.
  apply sublist_inserts_l, sublist_inserts_r. reflexivity.
Defined.



(** Updating in the reverse order hands every update the same storages and
    changes none. *)
Lemma shared_experience_read_only_witness :
  let order := [A2C 1 tt tt; A2C 0 tt tt] in
  let o := rollout_step (oracle := idle 2) agents2 0 [] 0 [] in
  order ≡ₚ agents2
  ∧ o = Ok (value_or [] o) (trace_of o)
  ∧ (∃ acts inserts,
       trace_of o = acts ++ inserts
       ∧ storages_written <$> inserts = [[0]; [1]]%nat)
  ∧ ∃ evs,
      update_loop (oracle := idle 2) order agents2 true 1 [] = Ok tt evs
      ∧ updates_of evs = [(1, [0; 1]); (0, [0; 1])]%nat
      ∧ ∀ S : gmap nat (Storage nat), storage_effects 5 evs S = Some S.
Proof.
  intros order o.
  assert (Hperm : order ≡ₚ agents2) by apply perm_swap.
  assert (H : o = Ok (value_or [] o) (trace_of o)) by (vm_compute; reflexivity).
  destruct (shared_experience_read_only (oracle := idle 2) 5 agents2 0 true 1)
    as (_ & _ & Hroll & _ & Horder).
  split; [exact Hperm|]. split; [exact H|]. split.
  - destruct (Hroll [] 0%nat [] _ _ H) as (acts & inserts & Htr & _ & Hw).
    exists acts, inserts. split; [exact Htr | exact Hw].
  - destruct (Horder order [] Hperm) as (evs & evs0 & Hloop & _ & Hupd & _ & HS).
    exists evs. split_and!; [exact Hloop | exact Hupd | exact HS].
Defined.

(** A whole run in the busy world: 40 environment steps at 5 steps times 2
    instances per rollout make 4 updates; updates 3 and 4 checkpoint and
    evaluate, updates 2 and 4 log.  The 20 training steps and the 2
    evaluation steps all show in the trace, which ends with the training
    environment being closed. *)
Example main_completes :
  let o := main (oracle := busy 2) config algorithm 1 "save" "eval" "loss" [] in
  o = Ok tt (trace_of o)
  ∧ length (filter (λ e, is_envs_step e = true) (trace_of o)) = 22%nat
  ∧ length (filter (λ e, is_make_archive e = true) (trace_of o)) = 2%nat
  ∧ length (filter (λ e, is_wandb_log e = true) (trace_of o)) = 2%nat
  ∧ last (trace_of o) = Some (EnvsClose 5).
Proof. vm_compute. split_and!; reflexivity. Qed.

End Runs.

(** * Further properties of the orchestrator *)

(** Solving [Emits] goals along the structure of the program. *)
Ltac emits_step :=
  lazymatch goal with
  | |- Emits ?P (if true then ?m else _) => change (Emits P m)
  | |- Emits ?P (if false then _ else ?m) => change (Emits P m)
  | |- Emits _ (if ?b then _ else _) => destruct b
  | |- Emits _ (match ?x with _ => _ end) => destruct x
  | |- Emits _ (ret _) => apply Emits_ret
  | |- Emits _ (raise _) => apply Emits_raise
  | |- Emits _ timeout => apply Emits_timeout
  | |- Emits _ (read _) => apply Emits_read
  | |- Emits _ (index _ _) => apply Emits_index
  | |- Emits _ (getitem _ _) => apply Emits_getitem
  | |- Emits _ (pymod _ _) => apply Emits_pymod
  | |- Emits _ (floordiv _ _) => apply Emits_floordiv
  | |- Emits _ (unzip4 _) => apply Emits_unzip4
  | |- Emits _ (lift _) => apply Emits_lift
  | |- Emits _ (cadence _ _ _) => apply Emits_cadence
  | |- Emits _ (call_ _) => apply Emits_call_
  | |- Emits _ (call _ _) => apply Emits_call
  | |- Emits _ (make_vec_envs _ _) => apply Emits_make_vec_envs
  | |- Emits _ (bind _ _) => apply Emits_bind
  | |- Emits _ (for_each _ _) => apply Emits_for_each
  | |- Emits _ (collect _ _) => apply Emits_collect
  | |- Emits _ (fold_for _ _ _) => apply Emits_fold_for
  end.

Ltac emits := repeat (intros; cbv zeta; emits_step); intros; try done.

Section Coverage.

Context {Tensor Space : Type} {oracle : Oracle Tensor Space}.
Variable config : Config.
Variable algorithm : Algorithm.

Abbreviation Mon := (M Tensor Space).
Abbreviation Ev := (Event Tensor Space).

Lemma returned_Ok {A} (d : A) (o : outcome Tensor Space A) :
  returned o = true → o = Ok (value_or d o) (trace_of o).
Proof. by destruct o. Qed.

(** ** The info window *)

Lemma last_n_all {A} n (l : list A) : (length l ≤ n)%nat → last_n n l = l.
Proof. intros H. unfold last_n. by replace (length l - n)%nat with 0%nat by lia. Qed.

Lemma length_last_n {A} n (l : list A) : length (last_n n l) = (length l `min` n)%nat.
Proof. unfold last_n. rewrite length_drop. lia. Qed.

Lemma last_n_app_last_n {A} n (a b : list A) :
  last_n n (last_n n a ++ b) = last_n n (a ++ b).
Proof.
  destruct (decide (length a ≤ n)%nat) as [Hle|Hgt].
  - by rewrite (last_n_all n a).
  - unfold last_n at 1 3. rewrite !length_app, length_last_n.
    unfold last_n.
    replace (length a `min` n + length b - n)%nat with (length b) by lia.
    replace (length a + length b - n)%nat
      with ((length a - n) + length b)%nat by lia.
    rewrite <- drop_drop.
    by rewrite (drop_app_le a b (length a - n)) by lia.
Qed.

Lemma deque_append_last_n dq x :
  (length dq ≤ deque_maxlen)%nat →
  deque_append dq x = last_n deque_maxlen (dq ++ [x]).
Proof.
  intros H. unfold deque_append, last_n. rewrite length_app. simpl.
  case_decide.
  - by replace (length dq + 1 - deque_maxlen)%nat with 1%nat by lia.
  - by replace (length dq + 1 - deque_maxlen)%nat with 0%nat by lia.
Qed.

Lemma foldl_deque_append window infos :
  (length window ≤ deque_maxlen)%nat →
  foldl deque_append window infos = last_n deque_maxlen (window ++ infos).
Proof.
  revert window. induction infos as [|x infos IH]; intros window H; simpl.
  - rewrite app_nil_r. by rewrite last_n_all.
  - rewrite IH.
    + rewrite deque_append_last_n by done.
      rewrite last_n_app_last_n. by rewrite <- app_assoc.
    + rewrite deque_append_last_n by done. rewrite length_last_n. lia.
Qed.

Lemma step_infos_of_app (tr evs1 evs2 : list Ev) :
  step_infos_of tr (evs1 ++ evs2)
  = step_infos_of tr evs1 ++ step_infos_of (tr ++ evs1) evs2.
Proof.
  revert tr. induction evs1 as [|e evs1 IH]; intros tr.
  - by rewrite app_nil_r.
  - cbn [app step_infos_of]. rewrite IH, <- !app_assoc. done.
Qed.

Lemma step_infos_of_none (tr evs : list Ev) :
  Forall (λ e, is_envs_step e = false) evs → step_infos_of tr evs = [].
Proof.
  intros H. revert tr. induction H as [|e evs He _ IH]; intros tr; [done|].
  cbn [step_infos_of]. by rewrite He, IH.
Qed.

Lemma act_events_no_step agents step :
  Forall (λ e : Ev, is_envs_step e = false) (act_events agents step).
Proof. unfold act_events. apply Forall_fmap. by apply Forall_true. Qed.

Lemma inserts_no_step masks bad_masks agents (inserts : list Ev) :
  Forall2 (inserts_masks masks bad_masks) agents inserts →
  Forall (λ e, is_envs_step e = false) inserts.
Proof.
  induction 1 as [|agent e agents inserts (args & -> & _) _ IH]; by constructor.
Qed.

Lemma fold_rollout_window agents envs (steps : list nat) window
    (tr : list Ev) window' tr' :
  fold_for steps (rollout_step agents envs) window tr = Ok window' tr' →
  (length window ≤ deque_maxlen)%nat →
  ∃ evs : list Ev,
    tr' = tr ++ evs
    ∧ window' = last_n deque_maxlen (window ++ step_infos_of tr evs).
Proof.
  revert window tr. induction steps as [|step steps IH]; intros window tr; simpl.
  - intros [= <- <-] Hlen. exists []. rewrite !app_nil_r.
    by rewrite last_n_all.
  - intros H Hlen. apply bind_Ok in H as (w1 & tr1 & Hstep & Hrest).
    apply rollout_step_inv in Hstep
      as (actions & bad & inserts & -> & _ & Hins & ->).
    rewrite foldl_deque_append in Hrest by done.
    apply IH in Hrest as (evs & -> & ->).
    2:{ rewrite length_last_n. lia. }
    exists ((act_events agents step ++ [EnvsStep envs actions]) ++ inserts ++ evs).
    split; [by rewrite <- !app_assoc|].
    rewrite last_n_app_last_n, <- app_assoc. do 2 f_equal.
    rewrite !step_infos_of_app.
    rewrite (step_infos_of_none _ _ (act_events_no_step agents step)).
    rewrite (step_infos_of_none _ inserts (inserts_no_step _ _ _ _ Hins)).
    cbn [step_infos_of is_envs_step]. rewrite !app_nil_r, <- !app_assoc. done.
Qed.

(** X1: a rollout that completes leaves in the info window the 10 most
    recent entries of the old window followed by the non-empty info dicts
    the environment returned at the rollout's steps, in step order; the
    window never holds more than 10 entries. *)
Theorem rollout_window_recent agents envs window (tr : list Ev) window' tr' :
  rollout algorithm agents envs window tr = Ok window' tr' →
  (length window ≤ 10)%nat →
  ∃ evs : list Ev,
    tr' = tr ++ evs
    ∧ window' = last_n 10 (window ++ step_infos_of tr evs)
    ∧ (length window' ≤ 10)%nat.
Proof.
  intros H Hlen. apply fold_rollout_window in H as (evs & -> & ->); [|done].
  exists evs. split_and!; [done|done|].
  rewrite length_last_n. unfold deque_maxlen. lia.
Qed.

(** ** Outcome of one training step *)



Lemma index_Raise {A} (l : list A) i (tr : list Ev) :
  l !! i = None → index l i tr = Raise IndexError tr.
Proof. unfold index. by intros ->. Qed.

Lemma index_Some {A} (l : list A) i a (tr : list Ev) :
  l !! i = Some a → index l i tr = Ok a tr.
Proof. unfold index. by intros ->. Qed.




(** ** One pass of the evaluation loop *)

Lemma eval_acts_Ok (pairs : list (Agent Space * Tensor)) n_obs masks
    (tr : list Ev) outs tr' :
  collect pairs (λ p,
      do obs <- index n_obs (agent_id p.1);
      call (ModelAct (agent_id p.1) (Given obs p.2 masks)) model_act) tr
  = Ok outs tr' →
  ∃ acts : list Ev,
    tr' = tr ++ acts
    ∧ omap act_agent acts = (agent_id ∘ fst) <$> pairs
    ∧ length acts = length pairs
    ∧ length outs = length pairs
    ∧ Forall (λ p, (agent_id p.1 < length n_obs)%nat) pairs.
Proof.
  revert tr outs tr'. induction pairs as [|p pairs IH]; intros tr outs tr'; simpl.
  - intros [= <- <-]. exists []. by rewrite app_nil_r.
  - intros H. apply bind_Ok in H as (o & tr1 & Hact & H).
    apply bind_Ok in H as (outs1 & tr2 & Hrest & H). injection H as <- <-.
    apply bind_Ok in Hact as (obs & ? & [Hobs ->]%index_Ok & Hact).
    injection Hact as <- <-.
    apply IH in Hrest as (acts & -> & Hids & Hlen & Hlen' & Hall).
    eexists (_ :: acts). rewrite <- app_assoc. split; [done|].
    split_and!; simpl; try by f_equal.
    constructor; [|done]. by apply lookup_lt_Some in Hobs.
Qed.

(** X3: a pass of the evaluation loop that completes has asked every agent
    to act exactly once, in agent order, and then stepped the evaluation
    environment once with one action per agent; it leaves one recurrent
    state per agent for the next pass and adds the step's non-empty info
    dicts to those collected.  It can only complete if the agent list is not
    empty and every agent's id indexes an observation. *)
Theorem evaluate_body_pass agents eval_envs masks s (tr : list Ev) s' tr' :
  evaluate_body agents eval_envs masks s tr = Ok s' tr' →
  length (ev_hidden s) = length agents →
  ∃ (acts : list Ev) actions,
    tr' = tr ++ acts ++ [EnvsStep eval_envs actions]
    ∧ omap act_agent acts = agent_id <$> agents
    ∧ length acts = length agents
    ∧ length actions = length agents
    ∧ length (ev_hidden s') = length agents
    ∧ ev_obs s' = step_obs (envs_step tr')
    ∧ ev_infos s'
      = ev_infos s ++ filter (λ i, i ≠ ∅) (step_infos (envs_step tr'))
    ∧ agents ≠ []
    ∧ Forall (λ agent, (agent_id agent < length (ev_obs s))%nat) agents.
Proof.
  unfold evaluate_body. intros H Hlen.
  apply bind_Ok in H as (outs & tr1 & Hacts & H).
  apply eval_acts_Ok in Hacts as (acts & -> & Hids & Hn & Hn' & Hall).
  assert (Hfst : fst <$> zip agents (ev_hidden s) = agents).
  { apply fst_zip. lia. }
  rewrite length_zip in Hn, Hn'.
  destruct outs as [|o outs]; [done|].
  cbn [unzip4] in H. rewrite bind_ret, bind_call in H. injection H as <- <-.
  eexists acts, _. rewrite <- app_assoc.
  simpl in Hn'.
  split_and!; cbn [ev_hidden ev_obs ev_infos n_action n_recurrent_hidden_states];
    try done.
  - by rewrite Hids, list_fmap_compose, Hfst.
  - lia.
  - change (length (act_action <$> o :: outs) = length agents).
    rewrite length_fmap. simpl. lia.
  - change (length (act_hidden <$> o :: outs) = length agents).
    rewrite length_fmap. simpl. lia.
  - intros ->. simpl in Hn'. lia.
  - rewrite <- Hfst. apply Forall_fmap. exact Hall.
Qed.

(** ** How an evaluation ends *)

Lemma evaluate_body_Emits (P : Ev → Prop) agents eval_envs masks s :
  (∀ i args, P (ModelAct i args)) → (∀ actions, P (EnvsStep eval_envs actions)) →
  Emits P (evaluate_body agents eval_envs masks s).
Proof. intros Hact Hstep. unfold evaluate_body. emits. Qed.

Lemma evaluate_loop_Emits (P : Ev → Prop) fuel agents eval_envs masks s :
  (∀ i args, P (ModelAct i args)) → (∀ actions, P (EnvsStep eval_envs actions)) →
  Emits P (evaluate_loop config fuel agents eval_envs masks s).
Proof.
  intros Hact Hstep. revert s. induction fuel as [|fuel IH]; intros s; simpl.
  - emits.
  - destruct (evaluate_guard config s); [|apply Emits_ret].
    apply Emits_bind; [by apply evaluate_body_Emits | apply IH].
Qed.

(** A dictionary of squashed infos has a key exactly when some info has it,
    the reserved key apart. *)
Lemma squash_info_is_Some info key :
  key ≠ TimeLimit_truncated →
  is_Some (Metrics._squash_info info !! key)
  ↔ ∃ d, d ∈ info ∧ is_Some (d !! key).
Proof.
  intros Hkey. rewrite MetricsFacts.squash_info_lookup.
  case_decide as Hin.
  - apply MetricsFacts.elem_of_squash_keys in Hin as [_ Hd].
    split; [done|]. by eexists.
  - split; [by intros [? ?]|]. intros Hd. destruct Hin.
    by apply MetricsFacts.elem_of_squash_keys.
Qed.

(** X4: [evaluate] closes the environment it built exactly when its loop
    returns; a pass that raises leaves the environment open, and no other
    environment is ever closed by [evaluate]. *)
Theorem evaluate_closes_iff_loop_returns fuel agents monitor_dir (tr : list Ev) :
  (0 ≤ episodes_per_eval config)%Z →
  let E := episodes_per_eval config in
  let h := length tr in
  let tr0 := tr ++ [MakeVecEnvs h E (Some monitor_dir); EnvsReset h] in
  let loop :=
    evaluate_loop config fuel agents h (replicate (Z.to_nat E) [0%Q])
      {| ev_obs := envs_reset tr0;
         ev_hidden := (λ agent, zeros_hidden E (agent_id agent)) <$> agents;
         ev_infos := [] |} tr0 in
  ∃ evs : list Ev,
    trace_of (evaluate config fuel agents monitor_dir tr) = tr0 ++ evs
    ∧ filter (λ e, is_envs_close e = true) evs
      = match loop with
        | Ok _ _ => [EnvsClose h]
        | _ => []
        end.
Proof.
  intros HE E h tr0 loop. rewrite evaluate_unfold by done.
  fold E h tr0.
  destruct (evaluate_loop_Emits (λ e, is_envs_close e = false) fuel agents h
              (replicate (Z.to_nat E) [0%Q])
              {| ev_obs := envs_reset tr0;
                 ev_hidden := (λ agent, zeros_hidden E (agent_id agent)) <$> agents;
                 ev_infos := [] |} ltac:(done) ltac:(done) tr0)
    as (evs & Htr & Hnone).
  subst loop.
  destruct (evaluate_loop config fuel agents h _ _ tr0) as [all trl|e trl|trl]
    eqn:Hloop; simpl in Htr; subst trl.
  - rewrite (bind_known _ _ _ _ _ Hloop), evaluate_finish.
    destruct (Metrics._squash_info all !! "episode_reward"); simpl;
      eexists; rewrite <- app_assoc; (split; [done|]);
      by rewrite filter_app, (filter_none is_envs_close evs Hnone).
  - rewrite (bind_Raise _ _ _ _ _ Hloop). exists evs. split; [done|].
    by apply filter_none.
  - rewrite (bind_Timeout _ _ _ _ Hloop). exists evs. split; [done|].
    by apply filter_none.
Qed.

(** X5: once the loop of [evaluate] has returned, the mean episode reward is
    reported exactly when at least one collected info dict has the key
    "episode_reward"; otherwise [evaluate] raises [KeyError] after closing
    the environment, and nothing is reported. *)
Theorem evaluate_reports_iff_reward_key fuel agents monitor_dir (tr : list Ev)
    all trl :
  (0 ≤ episodes_per_eval config)%Z →
  let E := episodes_per_eval config in
  let h := length tr in
  let tr0 := tr ++ [MakeVecEnvs h E (Some monitor_dir); EnvsReset h] in
  evaluate_loop config fuel agents h (replicate (Z.to_nat E) [0%Q])
    {| ev_obs := envs_reset tr0;
       ev_hidden := (λ agent, zeros_hidden E (agent_id agent)) <$> agents;
       ev_infos := [] |} tr0 = Ok all trl →
  ((∃ d, d ∈ all ∧ is_Some (d !! "episode_reward")) →
   ∃ reward,
     evaluate config fuel agents monitor_dir tr
     = Ok tt (trl ++ [EnvsClose h; LoggingInfo (MsgEval (length all) reward)]))
  ∧ (¬ (∃ d, d ∈ all ∧ is_Some (d !! "episode_reward")) →
     evaluate config fuel agents monitor_dir tr
     = Raise (KeyError "episode_reward") (trl ++ [EnvsClose h])).
Proof.
  intros HE E h tr0 Hloop. rewrite evaluate_unfold by done.
  fold E h tr0. rewrite (bind_known _ _ _ _ _ Hloop), evaluate_finish.
  split; intros Hkey.
  - apply squash_info_is_Some in Hkey as [reward ->]; [|done]. by exists reward.
  - destruct (Metrics._squash_info all !! "episode_reward") as [reward|] eqn:Hr;
      [|done].
    destruct Hkey. apply (squash_info_is_Some all "episode_reward"); [done|].
    by eexists.
Qed.

(** ** How a log point ends *)

(** X6: the log point of update j ends in one of five ways.  A zero
    [log_interval] raises [ZeroDivisionError] at once.  When j is no
    multiple of the interval, or the window holds fewer than two infos,
    nothing happens.  Otherwise the clock is read; if it has not advanced
    since the start of training the FPS division raises
    [ZeroDivisionError]; else the "Updates" line is logged, and if no info
    of the window has the key "episode_reward" the log point raises
    [KeyError] with that line already written, nothing sent to the metrics
    sink and the window kept; else the reward line is logged, the metrics
    are sent and the window is cleared. *)
Theorem log_stage_outcome start j st (tr : list Ev) :
  let interval := log_interval config in
  let flush := (j `mod` interval)%Z = 0%Z ∧ (1 < length (all_infos st))%nat in
  let total := ((j + 1) * num_envs algorithm * num_steps algorithm)%Z in
  let elapsed := (time_time (tr ++ [TimeTime]) - start)%Q in
  let updates_line :=
    LoggingInfo (MsgUpdates j total (py_int (inject_Z total / elapsed))) in
  let squashed := Metrics._squash_info (all_infos st) in
  (interval = 0%Z →
   log_stage config algorithm start j st tr = Raise ZeroDivisionError tr)
  ∧ (interval ≠ 0%Z → ¬ flush →
     log_stage config algorithm start j st tr = Ok st tr)
  ∧ (interval ≠ 0%Z → flush → Qeq_bool elapsed 0 = true →
     log_stage config algorithm start j st tr
     = Raise ZeroDivisionError (tr ++ [TimeTime]))
  ∧ (interval ≠ 0%Z → flush → Qeq_bool elapsed 0 = false →
     (∀ d, d ∈ all_infos st → d !! "episode_reward" = None) →
     log_stage config algorithm start j st tr
     = Raise (KeyError "episode_reward") (tr ++ [TimeTime; updates_line]))
  ∧ (interval ≠ 0%Z → flush → Qeq_bool elapsed 0 = false →
     ∀ reward, squashed !! "episode_reward" = Some reward →
     log_stage config algorithm start j st tr
     = Ok {| all_infos := []; environment_steps := environment_steps st |}
          (tr ++ [ TimeTime; updates_line;
                   LoggingInfo (MsgTrainReward (length (all_infos st)) reward);
                   WandbLog (<["environment_steps" :=
                                inject_Z (environment_steps st)]> squashed) ])).
Proof.
  intros interval flush total elapsed updates_line squashed.
  unfold log_stage. fold interval. unfold pymod.
  split_and!.
  - intros ->. by rewrite decide_True.
  - intros Hi Hno. rewrite decide_False by done. rewrite bind_ret.
    destruct (bool_decide _ && bool_decide _) eqn:Hb; [|done].
    apply andb_true_iff in Hb as [H1%bool_decide_eq_true H2%bool_decide_eq_true].
    by destruct Hno.
  - intros Hi [Hj Hn] Hz. rewrite decide_False by done. rewrite bind_ret.
    rewrite (bool_decide_eq_true_2 _ Hj), (bool_decide_eq_true_2 _ Hn).
    cbn [andb]. rewrite bind_call. fold elapsed. by rewrite Hz.
  - intros Hi [Hj Hn] Hz Hnone. rewrite decide_False by done. rewrite bind_ret.
    rewrite (bool_decide_eq_true_2 _ Hj), (bool_decide_eq_true_2 _ Hn).
    cbn [andb]. rewrite bind_call. fold elapsed total. rewrite Hz.
    rewrite bind_ret, bind_call_. fold updates_line squashed.
    assert (Hr : squashed !! "episode_reward" = None).
    { destruct (squashed !! "episode_reward") as [reward|] eqn:Hr; [|done].
      destruct (proj1 (squash_info_is_Some (all_infos st) "episode_reward"
                         ltac:(done)) ltac:(by eexists)) as (d & Hd & [v Hv]).
      by rewrite (Hnone d Hd) in Hv. }
    unfold getitem. rewrite Hr. unfold bind, raise.
    by rewrite <- app_assoc.
  - intros Hi [Hj Hn] Hz reward Hr. rewrite decide_False by done. rewrite bind_ret.
    rewrite (bool_decide_eq_true_2 _ Hj), (bool_decide_eq_true_2 _ Hn).
    cbn [andb]. rewrite bind_call. fold elapsed total. rewrite Hz.
    rewrite bind_ret, bind_call_. fold updates_line squashed.
    unfold getitem. rewrite Hr. rewrite bind_ret, !bind_call_.
    unfold ret. by rewrite <- !app_assoc.
Qed.

(** ** The step budget *)

(** X7: with positive [num_steps] and [num_envs] and a non-negative step
    budget, a completed update loop has counted exactly
    num_updates * num_steps * num_envs environment steps, which never
    exceeds the budget int(num_env_steps) and falls short of it by less than
    one rollout. *)
Theorem training_budget fuel agents envs writer save_dir eval_dir start
    (tr0 : list Ev) st_end tr_end :
  (0 < num_steps algorithm)%Z → (0 < num_envs algorithm)%Z →
  (0 ≤ py_int (num_env_steps config))%Z →
  let budget := py_int (num_env_steps config) in
  let num_updates :=
    ((budget `div` num_steps algorithm) `div` num_envs algorithm)%Z in
  let rollout_size := (num_steps algorithm * num_envs algorithm)%Z in
  update_loop_all config algorithm fuel agents envs writer save_dir eval_dir
    start num_updates tr0 = Ok st_end tr_end →
  environment_steps st_end = (num_updates * rollout_size)%Z
  ∧ (environment_steps st_end ≤ budget < environment_steps st_end + rollout_size)%Z.
Proof.
  intros Hs He Hb budget num_updates rollout_size Hloop.
  assert (HN : (0 ≤ num_updates)%Z).
  { unfold num_updates. apply Z.div_pos; [|done]. by apply Z.div_pos. }
  unfold update_loop_all in Hloop.
  rewrite <- (Z2Nat.id num_updates) in Hloop at 1 by done.
  apply environment_steps_after in Hloop. rewrite Z2Nat.id in Hloop by done.
  split; [exact Hloop|]. rewrite Hloop. unfold rollout_size.
  pose proof (Z.div_mod budget (num_steps algorithm) ltac:(lia)) as H1.
  pose proof (Z.mod_pos_bound budget (num_steps algorithm) Hs) as H1'.
  pose proof (Z.div_mod (budget `div` num_steps algorithm) (num_envs algorithm)
                ltac:(lia)) as H2.
  pose proof (Z.mod_pos_bound (budget `div` num_steps algorithm)
                (num_envs algorithm) He) as H2'.
  fold num_updates in H2. nia.
Qed.

(** ** Checkpoints and evaluations of a whole run *)

Lemma rollout_Emits (P : Ev → Prop) agents envs window :
  (∀ i args, P (ModelAct i args)) → (∀ actions, P (EnvsStep envs actions)) →
  (∀ i args, P (StorageInsert i args)) →
  Emits P (rollout algorithm agents envs window).
Proof. intros ???. unfold rollout, rollout_step. emits. Qed.

Lemma returns_and_updates_Emits (P : Ev → Prop) agents writer j :
  (∀ i, P (ComputeReturns i)) → (∀ i storages, P (Update i storages)) →
  (∀ tag v, P (AddScalar tag v j)) → (∀ i, P (StorageAfterUpdate i)) →
  Emits P (returns_and_updates agents writer j).
Proof. intros ????. unfold returns_and_updates, update_loop. emits. Qed.

Lemma log_stage_Emits (P : Ev → Prop) start j st :
  P TimeTime → (∀ m, P (LoggingInfo m)) → (∀ m, P (WandbLog m)) →
  Emits P (log_stage config algorithm start j st).
Proof. intros ???. unfold log_stage. emits. Qed.

Lemma evaluate_rest_Emits (P : Ev → Prop) fuel agents (eval_envs : nat) :
  P (EnvsReset eval_envs) → (∀ i args, P (ModelAct i args)) →
  (∀ actions, P (EnvsStep eval_envs actions)) → P (EnvsClose eval_envs) →
  (∀ m, P (LoggingInfo m)) →
  Emits P
    (do n_obs <- call (EnvsReset eval_envs) envs_reset;
     do masks <- zeros_column (episodes_per_eval config);
     do all_infos <- evaluate_loop config fuel agents eval_envs masks
       {| ev_obs := n_obs;
          ev_hidden := (λ agent, zeros_hidden (episodes_per_eval config)
                                   (agent_id agent)) <$> agents;
          ev_infos := [] |};
     exec call_ (EnvsClose eval_envs);
     do reward <- getitem (Metrics._squash_info all_infos) "episode_reward";
     call_ (LoggingInfo (MsgEval (length all_infos) reward))).
Proof.
  intros ?????. apply Emits_bind; [by apply Emits_call|]. intros n_obs.
  apply Emits_bind; [unfold zeros_column; emits|]. intros masks.
  apply Emits_bind; [by apply evaluate_loop_Emits|]. emits.
Qed.

Lemma evaluate_Emits (P : Ev → Prop) fuel agents monitor_dir :
  (∀ h n, P (MakeVecEnvs h n (Some monitor_dir))) → (∀ h, P (EnvsReset h)) →
  (∀ i args, P (ModelAct i args)) → (∀ h actions, P (EnvsStep h actions)) →
  (∀ h, P (EnvsClose h)) → (∀ m, P (LoggingInfo m)) →
  Emits P (evaluate config fuel agents monitor_dir).
Proof.
  intros ??????. unfold evaluate.
  apply Emits_bind; [by apply Emits_make_vec_envs|]. intros h.
  by apply evaluate_rest_Emits.
Qed.

Lemma save_stage_Emits_no_envs agents save_dir num_updates j :
  Emits (λ e, is_make_vec_envs e = false)
        (save_stage config agents save_dir num_updates j).
Proof. unfold save_stage, checkpoint. emits. Qed.

Lemma eval_stage_Emits_no_archive fuel agents eval_dir num_updates j :
  Emits (λ e, is_make_archive e = false)
        (eval_stage config fuel agents eval_dir num_updates j).
Proof.
  unfold eval_stage, run_evaluation. emits. by apply evaluate_Emits.
Qed.

Lemma sum_if_filter (b : Z → bool) (js : list Z) :
  sum_list ((λ j, if b j then 1%nat else 0%nat) <$> js)
  = length (filter (λ j, b j = true) js).
Proof.
  induction js as [|j js IH]; [done|]. rewrite fmap_cons. simpl sum_list.
  destruct (b j) eqn:Hb.
  - rewrite filter_cons_True by done. simpl. by rewrite IH.
  - rewrite filter_cons_False by (by rewrite Hb). by rewrite IH.
Qed.

(** Counting events of one kind over consecutive cycles. *)
Lemma fold_cycles_count (f : Ev → bool) (c : Z → nat)
    (body : LoopState → Z → Mon LoopState) (js : list Z) st (tr : list Ev)
    st' tr' :
  (∀ st j tr st' tr', (1 ≤ j)%Z → body st j tr = Ok st' tr' →
     ∃ evs : list Ev,
       tr' = tr ++ evs ∧ length (filter (λ e, f e = true) evs) = c j) →
  Forall (λ j, (1 ≤ j)%Z) js →
  fold_for js body st tr = Ok st' tr' →
  ∃ evs : list Ev,
    tr' = tr ++ evs
    ∧ length (filter (λ e, f e = true) evs) = sum_list (c <$> js).
Proof.
  intros Hbody Hjs. revert st tr.
  induction Hjs as [|j js Hj _ IH]; intros st tr; simpl.
  - intros [= <- <-]. exists []. by rewrite app_nil_r.
  - intros H. apply bind_Ok in H as (st1 & tr1 & Hcycle & Hrest).
    apply Hbody in Hcycle as (evs1 & -> & Hn1); [|done].
    apply IH in Hrest as (evs2 & -> & Hn2).
    exists (evs1 ++ evs2). rewrite app_assoc. split; [done|].
    by rewrite filter_app, length_app, Hn1, Hn2.
Qed.

Lemma Emits_count_none (f : Ev → bool) {A} (m : Mon A) (tr : list Ev) a tr' :
  Emits (λ e, f e = false) m → m tr = Ok a tr' →
  ∃ evs : list Ev, tr' = tr ++ evs ∧ length (filter (λ e, f e = true) evs) = 0%nat.
Proof.
  intros Hm Hok. eapply Emits_Ok in Hok as (evs & -> & Hnone); [|exact Hm].
  exists evs. split; [done|]. by rewrite filter_none.
Qed.

(** A stage that is due runs; one that is not, or has no interval, does
    nothing; a zero interval does not get this far. *)
Lemma cadence_due interval j num_updates (tr : list Ev) go tr' :
  (1 ≤ j)%Z →
  cadence interval j num_updates tr = Ok go tr' →
  go = due interval j num_updates ∧ tr' = tr.
Proof.
  intros Hj. destruct interval as [n|]; cbn [due].
  - destruct (decide (n = 0%Z)) as [->|Hn].
    + unfold cadence. rewrite bool_decide_eq_true_2 by lia.
      unfold pymod. by rewrite decide_True.
    + rewrite cadence_Ok by done. by intros [= <- <-].
  - by intros [= <- <-].
Qed.

Lemma save_stage_count agents save_dir num_updates j (tr : list Ev) tr' :
  (1 ≤ j)%Z →
  save_stage config agents save_dir num_updates j tr = Ok tt tr' →
  ∃ evs : list Ev,
    tr' = tr ++ evs
    ∧ length (filter (λ e, is_make_archive e = true) evs)
      = if due (save_interval config) j num_updates then 1%nat else 0%nat.
Proof.
  intros Hj H. unfold save_stage in H.
  apply bind_Ok in H as (go & ? & [-> ->]%cadence_due & H); [|done].
  destruct (due _ _ _).
  - rewrite checkpoint_Ok in H. injection H as <-.
    eexists. split; [done|].
    rewrite filter_app, length_app, (filter_none is_make_archive).
    + done.
    + unfold save_events. induction agents as [|agent agents' IH]; [done|].
      simpl. by repeat constructor.
  - injection H as <-. exists []. by rewrite app_nil_r.
Qed.

Lemma eval_stage_count fuel agents eval_dir num_updates j (tr : list Ev) tr' :
  (1 ≤ j)%Z →
  eval_stage config fuel agents eval_dir num_updates j tr = Ok tt tr' →
  ∃ evs : list Ev,
    tr' = tr ++ evs
    ∧ length (filter (λ e, is_make_vec_envs e = true) evs)
      = if due (eval_interval config) j num_updates then 1%nat else 0%nat.
Proof.
  intros Hj H. unfold eval_stage in H.
  apply bind_Ok in H as (go & ? & [-> ->]%cadence_due & H); [|done].
  destruct (due _ _ _).
  - unfold run_evaluation in H.
    apply bind_Ok in H as ([] & tr1 & Hev & Hrest).
    unfold evaluate in Hev.
    apply bind_Ok in Hev as (h & tr2 & Hmk & Hev).
    injection Hmk as <- <-.
    eapply (Emits_count_none is_make_vec_envs) in Hev as (evs1 & -> & Hn1);
      [|by apply evaluate_rest_Emits].
    eapply (Emits_count_none is_make_vec_envs) in Hrest as (evs2 & -> & Hn2);
      [|emits].
    eexists (_ :: evs1 ++ evs2). split; [by rewrite <- !app_assoc|].
    rewrite filter_cons_True by done. simpl.
    rewrite filter_app, length_app. lia.
  - injection H as <-. exists []. by rewrite app_nil_r.
Qed.

(** X8: in a completed run of the update loop the number of checkpoints
    written equals the number of update indices j in 1..num_updates with
    j % save_interval == 0 or j == num_updates, and is zero when
    [save_interval] is not configured. *)
Theorem checkpoints_of_run fuel agents envs writer save_dir eval_dir start
    num_updates (tr0 : list Ev) st_end tr_end :
  update_loop_all config algorithm fuel agents envs writer save_dir eval_dir
    start num_updates tr0 = Ok st_end tr_end →
  ∃ evs : list Ev,
    tr_end = tr0 ++ evs
    ∧ length (filter (λ e, is_make_archive e = true) evs)
      = length (filter (λ j, due (save_interval config) j num_updates = true)
                  (seqZ 1 num_updates)).
Proof.
  unfold update_loop_all. intros H.
  rewrite <- sum_if_filter.
  eapply (fold_cycles_count is_make_archive); [| |exact H].
  - clear. intros st j tr st' tr' Hj Hcycle.
    apply update_cycle_inv in Hcycle
      as (window & tr1 & tr2 & tr3 & tr4 & Hroll & Hupd & Hlog & Hsave & Heval).
    eapply (Emits_count_none is_make_archive) in Hroll as (e1 & -> & H1);
      [|by apply rollout_Emits].
    eapply (Emits_count_none is_make_archive) in Hupd as (e2 & -> & H2);
      [|by apply returns_and_updates_Emits].
    eapply (Emits_count_none is_make_archive) in Hlog as (e3 & -> & H3);
      [|by apply log_stage_Emits].
    apply save_stage_count in Hsave as (e4 & -> & H4); [|done].
    eapply (Emits_count_none is_make_archive) in Heval as (e5 & -> & H5);
      [|apply eval_stage_Emits_no_archive].
    exists (e1 ++ e2 ++ e3 ++ e4 ++ e5). rewrite <- !app_assoc. split; [done|].
    rewrite !filter_app, !length_app. lia.
  - apply Forall_forall. intros j Hj.
    apply elem_of_seqZ in Hj. lia.
Qed.

(** X9: in a completed run of the update loop the number of evaluation
    environments built equals the number of update indices j in
    1..num_updates with j % eval_interval == 0 or j == num_updates, and is
    zero when [eval_interval] is not configured. *)
Theorem evaluations_of_run fuel agents envs writer save_dir eval_dir start
    num_updates (tr0 : list Ev) st_end tr_end :
  update_loop_all config algorithm fuel agents envs writer save_dir eval_dir
    start num_updates tr0 = Ok st_end tr_end →
  ∃ evs : list Ev,
    tr_end = tr0 ++ evs
    ∧ length (filter (λ e, is_make_vec_envs e = true) evs)
      = length (filter (λ j, due (eval_interval config) j num_updates = true)
                  (seqZ 1 num_updates)).
Proof.
  unfold update_loop_all. intros H.
  rewrite <- sum_if_filter.
  eapply (fold_cycles_count is_make_vec_envs); [| |exact H].
  - clear. intros st j tr st' tr' Hj Hcycle.
    apply update_cycle_inv in Hcycle
      as (window & tr1 & tr2 & tr3 & tr4 & Hroll & Hupd & Hlog & Hsave & Heval).
    eapply (Emits_count_none is_make_vec_envs) in Hroll as (e1 & -> & H1);
      [|by apply rollout_Emits].
    eapply (Emits_count_none is_make_vec_envs) in Hupd as (e2 & -> & H2);
      [|by apply returns_and_updates_Emits].
    eapply (Emits_count_none is_make_vec_envs) in Hlog as (e3 & -> & H3);
      [|by apply log_stage_Emits].
    eapply (Emits_count_none is_make_vec_envs) in Hsave as (e4 & -> & H4);
      [|apply save_stage_Emits_no_envs].
    apply eval_stage_count in Heval as (e5 & -> & H5); [|done].
    exists (e1 ++ e2 ++ e3 ++ e4 ++ e5). rewrite <- !app_assoc. split; [done|].
    rewrite !filter_app, !length_app. lia.
  - apply Forall_forall. intros j Hj.
    apply elem_of_seqZ in Hj. lia.
Qed.

(** ** The cadence of checkpoints and evaluations in the loop *)

Lemma cadence_nonzero n j num_updates (tr : list Ev) go tr' :
  (1 ≤ j)%Z → cadence (Some n) j num_updates tr = Ok go tr' → n ≠ 0%Z.
Proof.
  intros Hj H ->. revert H. unfold cadence.
  rewrite bool_decide_eq_true_2 by lia.
  unfold pymod. by rewrite decide_True.
Qed.

Lemma exists_filter_length (f : Ev → bool) (evs : list Ev) :
  (∃ e, e ∈ evs ∧ f e = true)
  ↔ length (filter (λ e, f e = true) evs) ≠ 0%nat.
Proof.
  split.
  - intros (e & He & Hf) Hlen. apply length_zero_iff_nil in Hlen.
    assert (Hin : e ∈ filter (λ e, f e = true) evs)
      by (by apply list_elem_of_filter).
    rewrite Hlen in Hin. by apply elem_of_nil in Hin.
  - intros Hlen. destruct (filter (λ e, f e = true) evs) as [|e l] eqn:Hl; [done|].
    assert (Hin : e ∈ filter (λ e, f e = true) evs) by (rewrite Hl; left).
    apply list_elem_of_filter in Hin as [? ?]. eauto.
Qed.

(** The archives written and the environments built by one update cycle. *)
Lemma update_cycle_counts fuel agents envs writer save_dir eval_dir start
    num_updates st j (tr : list Ev) st' tr' :
  (1 ≤ j)%Z →
  update_cycle config algorithm fuel agents envs writer save_dir eval_dir start
    num_updates st j tr = Ok st' tr' →
  ∃ evs : list Ev,
    tr' = tr ++ evs
    ∧ length (filter (λ e, is_make_archive e = true) evs)
      = (if due (save_interval config) j num_updates then 1%nat else 0%nat)
    ∧ length (filter (λ e, is_make_vec_envs e = true) evs)
      = (if due (eval_interval config) j num_updates then 1%nat else 0%nat)
    ∧ (∀ n, save_interval config = Some n → n ≠ 0%Z)
    ∧ (∀ n, eval_interval config = Some n → n ≠ 0%Z).
Proof.
  intros Hj Hcycle.
  apply update_cycle_inv in Hcycle
    as (window & tr1 & tr2 & tr3 & tr4 & Hroll & Hupd & Hlog & Hsave & Heval).
  assert (Hs0 : ∀ n, save_interval config = Some n → n ≠ 0%Z).
  { intros n Hn. unfold save_stage in Hsave. rewrite Hn in Hsave.
    apply bind_Ok in Hsave as (go & ? & Hc & _).
    by eapply cadence_nonzero. }
  assert (He0 : ∀ n, eval_interval config = Some n → n ≠ 0%Z).
  { intros n Hn. unfold eval_stage in Heval. rewrite Hn in Heval.
    apply bind_Ok in Heval as (go & ? & Hc & _).
    by eapply cadence_nonzero. }
  pose proof Hroll as Hroll'. pose proof Hupd as Hupd'.
  pose proof Hlog as Hlog'. pose proof Hsave as Hsave'.
  pose proof Heval as Heval'.
  eapply (Emits_Ok (λ e, is_make_archive e = false ∧ is_make_vec_envs e = false))
    in Hroll as (e1 & -> & H1); [|by apply rollout_Emits].
  eapply (Emits_Ok (λ e, is_make_archive e = false ∧ is_make_vec_envs e = false))
    in Hupd as (e2 & -> & H2); [|by apply returns_and_updates_Emits].
  eapply (Emits_Ok (λ e, is_make_archive e = false ∧ is_make_vec_envs e = false))
    in Hlog as (e3 & -> & H3); [|by apply log_stage_Emits].
  apply save_stage_count in Hsave as (e4 & -> & H4); [|done].
  eapply (Emits_Ok (λ e, is_make_vec_envs e = false)) in Hsave'
    as (e4' & Heq4 & H4'); [|apply save_stage_Emits_no_envs].
  apply app_inv_head in Heq4 as <-.
  apply eval_stage_count in Heval as (e5 & -> & H5); [|done].
  eapply (Emits_Ok (λ e, is_make_archive e = false)) in Heval'
    as (e5' & Heq5 & H5'); [|apply eval_stage_Emits_no_archive].
  apply app_inv_head in Heq5 as <-.
  exists (e1 ++ e2 ++ e3 ++ e4 ++ e5). rewrite <- !app_assoc.
  split; [done|]. split_and!; [| |done|done].
  - rewrite !filter_app, !length_app, H4.
    rewrite (filter_none is_make_archive e1)
      by (eapply Forall_impl; [exact H1|by intros ? [? ?]]).
    rewrite (filter_none is_make_archive e2)
      by (eapply Forall_impl; [exact H2|by intros ? [? ?]]).
    rewrite (filter_none is_make_archive e3)
      by (eapply Forall_impl; [exact H3|by intros ? [? ?]]).
    rewrite (filter_none is_make_archive e5) by done.
    simpl. lia.
  - rewrite !filter_app, !length_app, H5.
    rewrite (filter_none is_make_vec_envs e1)
      by (eapply Forall_impl; [exact H1|by intros ? [? ?]]).
    rewrite (filter_none is_make_vec_envs e2)
      by (eapply Forall_impl; [exact H2|by intros ? [? ?]]).
    rewrite (filter_none is_make_vec_envs e3)
      by (eapply Forall_impl; [exact H3|by intros ? [? ?]]).
    rewrite (filter_none is_make_vec_envs e4) by done.
    simpl. lia.
Qed.

(** Every archive an update cycle writes is the archive of that update, and
    every environment it builds is the evaluation environment of that
    update. *)
Lemma update_cycle_stage_calls fuel agents envs writer save_dir eval_dir start
    num_updates st j :
  Emits (λ e : Ev,
           (is_make_archive e = true →
            e = MakeArchive (path_join save_dir (u_name j)) "xztar" save_dir
                  (u_name j))
           ∧ (is_make_vec_envs e = true →
              ∃ h, e = MakeVecEnvs h (episodes_per_eval config)
                         (Some (path_join eval_dir (u_name j)))))
    (update_cycle config algorithm fuel agents envs writer save_dir eval_dir
       start num_updates st j).
Proof.
  unfold update_cycle. emits.
  - by apply rollout_Emits.
  - by apply returns_and_updates_Emits.
  - by apply log_stage_Emits.
  - unfold save_stage, checkpoint. emits.
  - unfold eval_stage, run_evaluation. emits.
    unfold evaluate. apply Emits_bind.
    + apply Emits_make_vec_envs. intros h. split; [done|]. eauto.
    + intros h. by apply evaluate_rest_Emits.
Qed.

Lemma update_cycle_Emits_any fuel agents envs writer save_dir eval_dir start
    num_updates st j :
  Emits (λ _ : Ev, True)
    (update_cycle config algorithm fuel agents envs writer save_dir eval_dir
       start num_updates st j).
Proof.
  eapply Emits_weaken; [|apply update_cycle_stage_calls]. done.
Qed.

(** Update [j] of a completed loop: the run before it, the cycle itself and
    the run after it. *)
Lemma update_loop_all_split fuel agents envs writer save_dir eval_dir start
    num_updates (tr0 : list Ev) st_end tr_end j :
  update_loop_all config algorithm fuel agents envs writer save_dir eval_dir
    start num_updates tr0 = Ok st_end tr_end →
  (1 ≤ j ≤ num_updates)%Z →
  ∃ st tr st' (evs rest : list Ev),
    fold_for (seqZ 1 (j - 1))
      (update_cycle config algorithm fuel agents envs writer save_dir eval_dir
         start num_updates)
      {| all_infos := []; environment_steps := 0 |} tr0 = Ok st tr
    ∧ update_cycle config algorithm fuel agents envs writer save_dir eval_dir
        start num_updates st j tr = Ok st' (tr ++ evs)
    ∧ tr_end = tr ++ evs ++ rest.
Proof.
  unfold update_loop_all. intros H Hj.
  assert (Hs : seqZ 1 num_updates
               = seqZ 1 (j - 1) ++ j :: seqZ (Z.succ j) (num_updates - j)).
  { replace num_updates with ((j - 1) + (1 + (num_updates - j)))%Z at 1 by lia.
    rewrite seqZ_app by lia. f_equal.
    rewrite seqZ_cons by lia. f_equal; [lia|]. f_equal; lia. }
  rewrite Hs, fold_for_app in H.
  apply bind_Ok in H as (st & tr & Hpre & H).
  cbn [fold_for] in H.
  apply bind_Ok in H as (st' & tr' & Hcycle & Hrest).
  pose proof Hcycle as Hcycle'.
  eapply (Emits_Ok (λ _, True)) in Hcycle' as (evs & -> & _);
    [|apply update_cycle_Emits_any].
  eapply (Emits_Ok (λ _, True)) in Hrest as (rest & -> & _).
  - exists st, tr, st', evs, rest. by rewrite <- app_assoc.
  - apply Emits_fold_for. intros. apply update_cycle_Emits_any.
Qed.

(** C6: in a run of the update loop that completes, take any update index
    j in 1..num_updates and the events of that update's cycle.  If
    [save_interval] is configured, a checkpoint is written in the cycle
    exactly when j % save_interval == 0 or j is the final update, and it is
    the archive of update j; if [eval_interval] is configured, an evaluation
    is started in the cycle exactly when j % eval_interval == 0 or j is the
    final update, and it records into the directory of update j.  An
    interval that is not configured triggers nothing.  (A run with a
    configured interval of zero does not complete: the modulo raises at the
    first update.) *)
Theorem stage_cadence fuel agents envs writer save_dir eval_dir start
    num_updates (tr0 : list Ev) st_end tr_end j :
  update_loop_all config algorithm fuel agents envs writer save_dir eval_dir
    start num_updates tr0 = Ok st_end tr_end →
  (1 ≤ j ≤ num_updates)%Z →
  ∃ st tr st' (evs rest : list Ev),
    fold_for (seqZ 1 (j - 1))
      (update_cycle config algorithm fuel agents envs writer save_dir eval_dir
         start num_updates)
      {| all_infos := []; environment_steps := 0 |} tr0 = Ok st tr
    ∧ update_cycle config algorithm fuel agents envs writer save_dir eval_dir
        start num_updates st j tr = Ok st' (tr ++ evs)
    ∧ tr_end = tr ++ evs ++ rest
    ∧ (∀ n, save_interval config = Some n →
         n ≠ 0%Z
         ∧ ((∃ e, e ∈ evs ∧ is_make_archive e = true)
            ↔ (j `mod` n)%Z = 0%Z ∨ j = num_updates))
    ∧ (save_interval config = None →
         ¬ ∃ e, e ∈ evs ∧ is_make_archive e = true)
    ∧ (∀ n, eval_interval config = Some n →
         n ≠ 0%Z
         ∧ ((∃ e, e ∈ evs ∧ is_make_vec_envs e = true)
            ↔ (j `mod` n)%Z = 0%Z ∨ j = num_updates))
    ∧ (eval_interval config = None →
         ¬ ∃ e, e ∈ evs ∧ is_make_vec_envs e = true)
    ∧ (∀ e, e ∈ evs → is_make_archive e = true →
         e = MakeArchive (path_join save_dir (u_name j)) "xztar" save_dir
               (u_name j))
    ∧ (∀ e, e ∈ evs → is_make_vec_envs e = true →
         ∃ h, e = MakeVecEnvs h (episodes_per_eval config)
                    (Some (path_join eval_dir (u_name j)))).
Proof.
  intros Hloop Hj.
  destruct (update_loop_all_split _ _ _ _ _ _ _ _ _ _ _ _ Hloop Hj)
    as (st & tr & st' & evs & rest & Hpre & Hcycle & Hend).
  exists st, tr, st', evs, rest. split; [done|]. split; [done|]. split; [done|].
  destruct (update_cycle_counts _ _ _ _ _ _ _ _ _ _ _ _ _ (proj1 Hj) Hcycle)
    as (evs' & Heq & Hsave & Heval & Hs0 & He0).
  apply app_inv_head in Heq as <-.
  pose proof Hcycle as Hcalls.
  eapply Emits_Ok in Hcalls as (evs' & Heq & Hcalls);
    [|apply update_cycle_stage_calls].
  apply app_inv_head in Heq as <-.
  rewrite Forall_forall in Hcalls.
  split_and!.
  - intros n Hn. split; [by apply Hs0|].
    rewrite exists_filter_length, Hsave, Hn. cbn [due].
    case_bool_decide; split; done || lia.
  - intros Hn. rewrite exists_filter_length, Hsave, Hn. cbn [due]. lia.
  - intros n Hn. split; [by apply He0|].
    rewrite exists_filter_length, Heval, Hn. cbn [due].
    case_bool_decide; split; done || lia.
  - intros Hn. rewrite exists_filter_length, Heval, Hn. cbn [due]. lia.
  - intros e He. by apply Hcalls.
  - intros e He. by apply Hcalls.
Qed.

(** ** Building the agents *)

Lemma collect_new_agents (pairs : list (nat * (Space * Space))) (tr : list Ev) :
  collect pairs (λ p, exec call_ (NewA2C p.1 p.2.1 p.2.2);
                      ret (A2C p.1 p.2.1 p.2.2)) tr
  = Ok ((λ p, A2C p.1 p.2.1 p.2.2) <$> pairs)
       (tr ++ ((λ p, NewA2C p.1 p.2.1 p.2.2) <$> pairs)).
Proof.
  revert tr. induction pairs as [|p pairs IH]; intros tr; simpl.
  - unfold ret. by rewrite app_nil_r.
  - rewrite bind_assoc, bind_call_, bind_ret.
    rewrite (bind_known _ _ _ _ _ (IH _)). unfold ret.
    by rewrite <- app_assoc.
Qed.

Lemma make_agents_Ok (tr : list Ev) :
  let agents :=
    (λ p : nat * (Space * Space), A2C p.1 p.2.1 p.2.2)
      <$> enumerate (zip (observation_space tr) (action_space tr)) in
  make_agents tr
  = Ok agents
       (tr ++ ((λ agent, NewA2C (agent_id agent) (agent_osp agent)
                           (agent_asp agent)) <$> agents)).
Proof.
  intros agents. unfold make_agents, read.
  rewrite (bind_known _ _ _ (observation_space tr) tr) by done.
  rewrite (bind_known _ _ _ (action_space tr) tr) by done.
  rewrite collect_new_agents. f_equal. f_equal. unfold agents.
  rewrite <- list_fmap_compose. done.
Qed.

(** ** Seeding the storages *)

(** The seeding loop on its own: it walks the observations, seeds the
    storage of agent i with observation i and moves it to the device, and
    stops with [IndexError] at the first observation that has no agent. *)
Lemma seed_loop_cases (agents : list (Agent Space)) (obs : list Tensor)
    (tr : list Ev) :
  let seeds :=
    flat_map (λ p : Agent Space * Tensor,
                [StorageSeedObs (agent_id p.1) p.2;
                 StorageTo (agent_id p.1) (device algorithm)])
             (zip agents obs) in
  for_each (seq 0 (length obs)) (λ i,
      do agent <- index agents i;
      do obs_i <- index obs i;
      exec call_ (StorageSeedObs (agent_id agent) obs_i);
      call_ (StorageTo (agent_id agent) (device algorithm))) tr
  = if decide (length obs ≤ length agents)%nat
    then Ok tt (tr ++ seeds)
    else Raise IndexError (tr ++ seeds).
Proof.
  intros seeds.
  assert (Hgen : ∀ n s (tr : list Ev),
    (s + n ≤ length obs)%nat → (s ≤ length agents)%nat →
    for_each (seq s n) (λ i,
        do agent <- index agents i;
        do obs_i <- index obs i;
        exec call_ (StorageSeedObs (agent_id agent) obs_i);
        call_ (StorageTo (agent_id agent) (device algorithm))) tr
    = let evs := flat_map (λ p : Agent Space * Tensor,
                   [StorageSeedObs (agent_id p.1) p.2;
                    StorageTo (agent_id p.1) (device algorithm)])
                   (take n (drop s (zip agents obs))) in
      if decide (s + n ≤ length agents)%nat
      then Ok tt (tr ++ evs) else Raise IndexError (tr ++ evs)).
  { induction n as [|n IH]; intros s tr0 Hobs Hag.
    - simpl. rewrite app_nil_r. by rewrite decide_True by lia.
    - cbn [seq for_each].
      destruct (lookup_lt_is_Some_2 obs s ltac:(lia)) as [obs_s Hobs_s].
      destruct (agents !! s) as [agent|] eqn:Hagent.
      + apply lookup_lt_Some in Hagent as Hlt.
        rewrite bind_assoc, (bind_known _ _ _ _ _ (index_Some _ _ _ tr0 Hagent)).
        rewrite bind_assoc, (bind_known _ _ _ _ _ (index_Some _ _ _ tr0 Hobs_s)).
        rewrite bind_assoc, !bind_call_.
        rewrite IH by lia.
        assert (Hz : zip agents obs !! s = Some (agent, obs_s)).
        { apply lookup_zip_with_Some. eauto. }
        rewrite (drop_S _ _ _ Hz). cbn [take flat_map]. cbv zeta.
        destruct (decide (S s + n ≤ length agents)%nat);
          [rewrite decide_True by lia|rewrite decide_False by lia];
          by rewrite <- !app_assoc.
      + apply lookup_ge_None in Hagent as Hge.
        rewrite bind_assoc, (bind_Raise _ _ _ _ _ (index_Raise _ _ tr0 Hagent)).
        rewrite decide_False by lia.
        rewrite drop_ge by (rewrite length_zip; lia).
        rewrite take_nil. simpl. by rewrite app_nil_r. }
  rewrite Hgen by lia. cbv zeta. rewrite drop_0.
  rewrite take_ge by (rewrite length_zip; lia). done.
Qed.

(** X11: what [main] does up to the seeding loop, when the calls it makes
    return.  It prepares the directories and the thread count, builds the
    training environment, builds one agent per pair of an observation space
    and an action space (the longer list cut to the shorter), agent i with
    id i, resets the environment and registers every agent's model.  Then it
    seeds the storage of agent i with observation i of the reset and moves
    it to the device.  If the reset returned more observations than there
    are agents, [main] raises [IndexError] once every agent is seeded and
    nothing else happens; if it returned fewer, the remaining agents are
    left unseeded without an error and [main] goes on to read the clock. *)
Theorem main_seeding fuel save_dir eval_dir loss_dir (tr : list Ev) :
  let writer_evs : list Ev :=
    if bool_decide (loss_dir = "") then []
    else [CleanupLogDir (format_dir loss_dir);
          NewSummaryWriter (format_dir loss_dir)] in
  let setup :=
    tr ++ writer_evs
       ++ [CleanupLogDir (format_dir eval_dir);
           CleanupLogDir (format_dir save_dir); SetNumThreads 1] in
  let envs := length setup in
  let tr1 := setup ++ [MakeVecEnvs envs (num_envs algorithm) None] in
  let agents :=
    (λ p : nat * (Space * Space), A2C p.1 p.2.1 p.2.2)
      <$> enumerate (zip (observation_space tr1) (action_space tr1)) in
  let tr2 :=
    tr1 ++ ((λ agent, NewA2C (agent_id agent) (agent_osp agent)
                        (agent_asp agent)) <$> agents)
        ++ [EnvsReset envs] in
  let obs := envs_reset tr2 in
  let seeds :=
    flat_map (λ p : Agent Space * Tensor,
                [StorageSeedObs (agent_id p.1) p.2;
                 StorageTo (agent_id p.1) (device algorithm)])
             (zip agents obs) in
  let tr3 :=
    tr2 ++ ((λ agent, WandbWatch (agent_id agent)) <$> agents) ++ seeds in
  agent_id <$> agents
  = seq 0 (length (observation_space tr1) `min` length (action_space tr1))
  ∧ ((length agents < length obs)%nat →
     main config algorithm fuel save_dir eval_dir loss_dir tr
     = Raise IndexError tr3)
  ∧ ((length obs ≤ length agents)%nat →
     ∃ rest : list Ev,
       trace_of (main config algorithm fuel save_dir eval_dir loss_dir tr)
       = tr3 ++ TimeTime :: rest).
Proof.
  intros writer_evs setup envs tr1 agents tr2 obs seeds tr3.
  split.
  { unfold agents. rewrite <- list_fmap_compose.
    change (agent_id ∘ _) with (fst : nat * (Space * Space) → nat).
    by rewrite fst_enumerate, length_zip. }
  unfold main.
  assert (Hw : ∃ writer,
    (if bool_decide (loss_dir = "") then ret false
     else let loss_dir := format_dir loss_dir in
          exec call_ (CleanupLogDir loss_dir);
          exec call_ (NewSummaryWriter loss_dir);
          ret true) tr = Ok writer (tr ++ writer_evs)).
  { unfold writer_evs. destruct (bool_decide (loss_dir = "")).
    - exists false. unfold ret. by rewrite app_nil_r.
    - exists true. cbv zeta. rewrite !bind_call_. unfold ret.
      by rewrite <- app_assoc. }
  destruct Hw as (writer & Hw).
  rewrite (bind_known _ _ _ _ _ Hw). cbv zeta. rewrite !bind_call_.
  replace ((((tr ++ writer_evs) ++ [CleanupLogDir (format_dir eval_dir)])
              ++ [CleanupLogDir (format_dir save_dir)]) ++ [SetNumThreads 1])
    with setup by (unfold setup; by rewrite <- !app_assoc).
  rewrite (bind_known _ _ _ envs tr1) by reflexivity.
  rewrite (bind_known _ _ _ _ _ (make_agents_Ok tr1)). fold agents.
  rewrite bind_call.
  replace ((tr1 ++ ((λ agent, NewA2C (agent_id agent) (agent_osp agent)
                               (agent_asp agent)) <$> agents))
             ++ [EnvsReset envs])
    with tr2 by (unfold tr2; by rewrite <- !app_assoc).
  fold obs.
  rewrite (bind_known _ _ _ _ _ (for_each_calls agents _ tr2)).
  pose proof (seed_loop_cases agents obs
                (tr2 ++ ((λ agent, WandbWatch (agent_id agent)) <$> agents)))
    as Hseed.
  cbv zeta in Hseed. fold seeds in Hseed.
  replace ((tr2 ++ ((λ agent, WandbWatch (agent_id agent)) <$> agents)) ++ seeds)
    with tr3 in Hseed by (unfold tr3; by rewrite <- !app_assoc).
  destruct (decide (length obs ≤ length agents)%nat) as [Hle|Hgt].
  - split; [lia|]. intros _.
    rewrite (bind_known _ _ _ _ _ Hseed). rewrite bind_call.
    match goal with
    | |- ∃ rest, trace_of (bind ?m ?k ?t) = _ =>
        assert (Hrest : Emits (λ _ : Ev, True) (bind m k))
    end.
    { unfold update_loop_all. emits. apply update_cycle_Emits_any. }
    destruct (Hrest (tr3 ++ [TimeTime])) as (rest & -> & _).
    exists rest. by rewrite <- app_assoc.
  - split; [|lia]. intros _.
    by rewrite (bind_Raise _ _ _ _ _ Hseed).
Qed.

(** ** Who acts and who is written, step by step *)

Lemma omap_act_events agents step :
  omap act_agent (act_events agents step : list Ev) = agent_id <$> agents
  ∧ omap insert_agent (act_events agents step : list Ev) = [].
Proof.
  unfold act_events. induction agents as [|agent agents [IH1 IH2]]; [done|].
  rewrite !fmap_cons. split.
  - change (agent_id agent :: omap act_agent
              ((λ agent, ModelAct (agent_id agent) (FromStorage step)) <$> agents
               : list Ev) = agent_id agent :: (agent_id <$> agents)).
    f_equal. exact IH1.
  - exact IH2.
Qed.

Lemma omap_inserts masks bad_masks agents (inserts : list Ev) :
  Forall2 (inserts_masks masks bad_masks) agents inserts →
  omap insert_agent inserts = agent_id <$> agents
  ∧ omap act_agent inserts = [].
Proof.
  induction 1 as [|agent e agents inserts (args & -> & _) _ [IH1 IH2]]; [done|].
  rewrite fmap_cons. split.
  - change (agent_id agent :: omap insert_agent inserts
            = agent_id agent :: (agent_id <$> agents)).
    f_equal. exact IH1.
  - exact IH2.
Qed.

Lemma fold_rollout_agents agents envs (steps : list nat) window (tr : list Ev)
    window' tr' :
  fold_for steps (rollout_step agents envs) window tr = Ok window' tr' →
  ∃ evs : list Ev, tr' = tr ++ evs
    ∧ omap act_agent evs = mjoin (replicate (length steps) (agent_id <$> agents))
    ∧ omap insert_agent evs
      = mjoin (replicate (length steps) (agent_id <$> agents)).
Proof.
  revert window tr. induction steps as [|step steps IH]; intros window tr.
  - intros [= <- <-]. exists []. by rewrite app_nil_r.
  - cbn [fold_for]. intros H. apply bind_Ok in H as (w1 & tr1 & Hstep & Hrest).
    apply rollout_step_inv in Hstep
      as (actions & bad_masks & inserts & -> & _ & Hins & _).
    apply IH in Hrest as (evs & -> & Hact & Hinsert).
    destruct (omap_act_events agents step) as [Ha1 Ha2].
    destruct (omap_inserts _ _ _ _ Hins) as [Hi1 Hi2].
    exists ((act_events agents step ++ [EnvsStep envs actions]) ++ inserts ++ evs).
    split; [by rewrite <- !app_assoc|].
    cbn [length replicate mjoin list_join].
    rewrite !omap_app, Ha1, Ha2, Hi1, Hi2, Hact, Hinsert. simpl.
    by rewrite app_nil_r.
Qed.

(** X12: in a rollout that completes, every step asks each agent for an
    action once, in the order of the agent list, and then writes once into
    each agent's storage, in the same order: over the rollout, the agents
    acted on and the storages inserted into are both the list of agent ids
    repeated [num_steps] times, so each storage receives exactly
    [num_steps] inserts between two resets of its write position. *)
Theorem rollout_round_robin agents envs window (tr : list Ev) window' tr' :
  rollout algorithm agents envs window tr = Ok window' tr' →
  let ids := agent_id <$> agents in
  let H := Z.to_nat (num_steps algorithm) in
  ∃ evs : list Ev, tr' = tr ++ evs
    ∧ omap act_agent evs = mjoin (replicate H ids)
    ∧ omap insert_agent evs = mjoin (replicate H ids).
Proof.
  unfold rollout. intros Hr. apply fold_rollout_agents in Hr.
  by rewrite length_seq in Hr.
Qed.

(** ** A run without a loss directory *)

(** X13: with an empty [loss_dir], [main] never constructs a summary
    writer and never writes a scalar, whatever the collaborators answer and
    however the run ends. *)
Theorem main_without_loss_dir fuel save_dir eval_dir (tr : list Ev) :
  ∃ evs : list Ev,
    trace_of (main config algorithm fuel save_dir eval_dir "" tr) = tr ++ evs
    ∧ Forall (λ e, is_writer_call e = false) evs.
Proof.
  revert tr.
  change (Emits (λ e : Ev, is_writer_call e = false)
            (main config algorithm fuel save_dir eval_dir "")).
  unfold main. rewrite bool_decide_eq_true_2 by done.
  apply Emits_bind_ok; [apply Emits_ret|]. intros writer ?? [= <- _]. cbv zeta.
  unfold make_agents, update_loop_all, update_cycle.
  emits.
  - by apply rollout_Emits.
  - unfold returns_and_updates, update_loop. emits.
  - by apply log_stage_Emits.
  - unfold save_stage, checkpoint. emits.
  - unfold eval_stage, run_evaluation. emits. by apply evaluate_Emits.
Qed.

(** ** The videos of an evaluation *)





(** *** No two videos of a run share a name *)












End Coverage.

(** ** What the squash operation does not look at *)

Module MetricsMore.
Import Metrics MetricsFacts.

Lemma contributions_delete_other key other (info : list (gmap string pyval)) :
  key ≠ other →
  contributions key (delete other <$> info) = contributions key info.
Proof.
  intros Hne. unfold contributions.
  induction info as [|d info IH]; [done|].
  rewrite fmap_cons. cbn [omap list_omap].
  rewrite lookup_delete_ne by done.
  destruct (d !! key); simpl; [f_equal|]; exact IH.
Qed.

Lemma squash_keys_delete info :
  squash_keys (delete TimeLimit_truncated <$> info) = squash_keys info.
Proof.
  apply set_eq. intros key. rewrite !elem_of_squash_keys.
  split; intros [Hne (d & Hd & Hk)]; (split; [done|]).
  - apply list_elem_of_fmap in Hd as (d0 & -> & Hd0).
    rewrite lookup_delete_ne in Hk by done. eauto.
  - exists (delete TimeLimit_truncated d). split.
    + apply list_elem_of_fmap. eauto.
    + by rewrite lookup_delete_ne.
Qed.

Lemma squash_keys_filter info :
  squash_keys (filter (λ i, i ≠ ∅) info) = squash_keys info.
Proof.
  apply set_eq. intros key. rewrite !elem_of_squash_keys.
  split; intros [Hne (d & Hd & Hk)]; (split; [done|]); exists d.
  - apply list_elem_of_filter in Hd as [_ Hd]. done.
  - split; [|done]. apply list_elem_of_filter. split; [|done].
    intros ->. rewrite lookup_empty in Hk. by destruct Hk.
Qed.

(** X15: the squashed metrics do not depend on the reserved truncation
    flag or on empty dicts: removing the flag from every dict, or dropping
    the empty dicts, before squashing gives the same result, and a dict
    that holds nothing but the flag contributes no key. *)
Theorem squash_info_ignores (info : list (gmap string pyval)) :
  _squash_info (delete TimeLimit_truncated <$> info) = _squash_info info
  ∧ _squash_info (filter (λ i, i ≠ ∅) info) = _squash_info info
  ∧ ∀ flag, _squash_info ({[ TimeLimit_truncated := flag ]} :: info)
            = _squash_info info.
Proof.
  split_and!.
  - apply map_eq. intros key. rewrite !squash_info_lookup.
    rewrite squash_keys_delete. case_decide as Hkey; [|done].
    apply elem_of_squash_keys in Hkey as [Hne _].
    by rewrite contributions_delete_other.
  - apply map_eq. intros key. rewrite !squash_info_lookup.
    rewrite squash_keys_filter. by rewrite contributions_filter_nonempty.
  - intros flag. apply map_eq. intros key. rewrite !squash_info_lookup.
    assert (Hkeys : squash_keys ({[ TimeLimit_truncated := flag ]} :: info)
                    = squash_keys info).
    { apply set_eq. intros k. rewrite !elem_of_squash_keys.
      split; intros [Hne (d & Hd & Hk)]; (split; [done|]).
      - apply elem_of_cons in Hd as [->|Hd]; [|eauto].
        rewrite lookup_singleton_ne in Hk by done. by destruct Hk.
      - exists d. split; [by right|done]. }
    rewrite Hkeys. case_decide as Hkey; [|done].
    apply elem_of_squash_keys in Hkey as [Hne _].
    unfold contributions. cbn [omap list_omap].
    by rewrite lookup_singleton_ne.
Qed.

End MetricsMore.

(** * Runs that meet the preconditions of the further properties *)

Module CoverageRuns.
Import Toy.

(** One rollout of two agents in the busy world, from an empty window. *)
Lemma busy_rollout :
  let o := rollout (oracle := busy 2) algorithm agents2 0 [] [] in
  o = Ok (value_or [] o) (trace_of o).
Proof. intros o. apply returned_Ok. vm_compute. reflexivity. Qed.

(** The four updates of the toy configuration in the busy world. *)
Lemma busy_updates :
  let init := {| all_infos := []; environment_steps := 0 |} in
  let o := update_loop_all (oracle := busy 2) config algorithm 1 agents2 0 true
             "save" "eval" 0 4 [] in
  o = Ok (value_or init o) (trace_of o).
Proof. intros init o. apply returned_Ok. vm_compute. reflexivity. Qed.

(** The loop of an evaluation of two agents in the busy world. *)
Lemma busy_evaluate_loop :
  let tr0 := [MakeVecEnvs 0 2 (Some "eval/u3"); EnvsReset 0] in
  let loop :=
    evaluate_loop (oracle := busy 2) config 1 agents2 0 [[0%Q]; [0%Q]]
      {| ev_obs := [0; 0]%nat; ev_hidden := [0; 0]%nat; ev_infos := [] |} tr0 in
  loop = Ok (value_or [] loop) (trace_of loop).
Proof. intros tr0 loop. apply returned_Ok. vm_compute. reflexivity. Qed.

(** The rollout of the busy world: five steps of two infos each fill the
    window with the ten infos the environment returned. *)
Lemma rollout_window_recent_witness :
  let o := rollout (oracle := busy 2) algorithm agents2 0 [] [] in
  ∃ evs,
    trace_of o = [] ++ evs
    ∧ value_or [] o
      = last_n 10 ([] ++ step_infos_of (oracle := busy 2) [] evs)
    ∧ (length (value_or [] o) ≤ 10)%nat.
Proof.
  intros o.
  exact (rollout_window_recent (oracle := busy 2) algorithm agents2 0 [] []
           (value_or [] o) (trace_of o) busy_rollout ltac:(simpl; lia)).
Defined.


(** One pass of the evaluation loop over two agents in the busy world. *)
Lemma evaluate_body_pass_witness :
  let s := {| ev_obs := [0; 0]; ev_hidden := [0; 0]; ev_infos := [] |}%nat in
  let o := evaluate_body (oracle := busy 2) agents2 0 [[0%Q]; [0%Q]] s [] in
  o = Ok (value_or s o) (trace_of o)
  ∧ ∃ acts actions,
      trace_of o = [] ++ acts ++ [EnvsStep 0 actions]
      ∧ omap act_agent acts = [0; 1]%nat
      ∧ length actions = 2%nat
      ∧ length (ev_hidden (value_or s o)) = 2%nat.
Proof.
  intros s o.
  assert (H : o = Ok (value_or s o) (trace_of o))
    by (apply returned_Ok; vm_compute; reflexivity).
  split; [exact H|].
  destruct (evaluate_body_pass (oracle := busy 2) agents2 0 [[0%Q]; [0%Q]] s []
              (value_or s o) (trace_of o) H eq_refl)
    as (acts & actions & Htr & Hacts & _ & Hlen & Hhid & _).
  exists acts, actions. split_and!; [exact Htr|exact Hacts|exact Hlen|exact Hhid].
Defined.

(** An evaluation in the busy world closes the environment it built. *)
Lemma evaluate_closes_witness :
  let o := evaluate (oracle := busy 2) config 1 agents2 "eval/u3" [] in
  ∃ evs,
    trace_of o = ([] ++ [MakeVecEnvs 0 2 (Some "eval/u3"); EnvsReset 0]) ++ evs
    ∧ filter (λ e, is_envs_close e = true) evs = [EnvsClose 0].
Proof.
  intros o.
  destruct (evaluate_closes_iff_loop_returns (oracle := busy 2) config 1 agents2
              "eval/u3" [] ltac:(simpl; lia)) as (evs & Htr & Hclose).
  exists evs. split; [exact Htr|].
  rewrite Hclose. vm_compute. reflexivity.
Defined.

(** An evaluation in the busy world reports a mean reward. *)
Lemma evaluate_reports_witness :
  let tr0 := [MakeVecEnvs 0 2 (Some "eval/u3"); EnvsReset 0] in
  let loop :=
    evaluate_loop (oracle := busy 2) config 1 agents2 0 [[0%Q]; [0%Q]]
      {| ev_obs := [0; 0]%nat; ev_hidden := [0; 0]%nat; ev_infos := [] |} tr0 in
  ∃ reward,
    evaluate (oracle := busy 2) config 1 agents2 "eval/u3" []
    = Ok tt (trace_of loop
               ++ [EnvsClose 0;
                   LoggingInfo (MsgEval (length (value_or [] loop)) reward)]).
Proof.
  intros tr0 loop.
  destruct (evaluate_reports_iff_reward_key (oracle := busy 2) config 1 agents2
              "eval/u3" [] (value_or [] loop) (trace_of loop)
              ltac:(simpl; lia) busy_evaluate_loop) as [Hreport _].
  apply Hreport. apply Exists_exists.
  apply (bool_decide_eq_true_1
           (Exists (λ d : gmap string pyval, is_Some (d !! "episode_reward"))
                   (value_or [] loop))).
  vm_compute. reflexivity.
Defined.

(** Two log points with a full window at update 2: one whose infos carry
    the reward, and one whose infos do not. *)
Lemma log_stage_outcome_witness :
  let st := {| all_infos := [episode_info 1; episode_info 3];
               environment_steps := 20 |} in
  let st' := {| all_infos := [ {[ "steps" := PNum 5 ]}; {[ "steps" := PNum 7 ]} ];
                environment_steps := 20 |} in
  log_stage (oracle := idle 2) config algorithm 0 2 st []
  = Ok {| all_infos := []; environment_steps := 20 |}
       [ TimeTime; LoggingInfo (MsgUpdates 2 30 30);
         LoggingInfo (MsgTrainReward 2 4);
         WandbLog (<["environment_steps" := 20%Q]>
                     (Metrics._squash_info (all_infos st))) ]
  ∧ log_stage (oracle := idle 2) config algorithm 0 2 st' []
    = Raise (KeyError "episode_reward")
            [TimeTime; LoggingInfo (MsgUpdates 2 30 30)].
Proof.
  intros st st'.
  assert (H1 : log_interval config ≠ 0%Z) by (simpl; lia).
  split.
  - destruct (log_stage_outcome (oracle := idle 2) config algorithm 0 2 st [])
      as (_ & _ & _ & _ & Hflush).
    assert (H2 : (2 `mod` log_interval config)%Z = 0%Z
                 ∧ (1 < length (all_infos st))%nat)
      by (split; [reflexivity|simpl; lia]).
    assert (H3 : Metrics._squash_info (all_infos st) !! "episode_reward"
                 = Some 4%Q) by (vm_compute; reflexivity).
    exact (Hflush H1 H2 eq_refl 4%Q H3).
  - destruct (log_stage_outcome (oracle := idle 2) config algorithm 0 2 st' [])
      as (_ & _ & _ & Hkey & _).
    assert (H2 : (2 `mod` log_interval config)%Z = 0%Z
                 ∧ (1 < length (all_infos st'))%nat)
      by (split; [reflexivity|simpl; lia]).
    assert (H3 : ∀ d, d ∈ all_infos st' → d !! "episode_reward" = None).
    { apply Forall_forall. repeat constructor. }
    exact (Hkey H1 H2 eq_refl H3).
Defined.

(** The toy configuration: a budget of 40 steps at 10 steps per rollout
    gives 4 updates and 40 counted steps. *)
Lemma training_budget_witness :
  let init := {| all_infos := []; environment_steps := 0 |} in
  let o := update_loop_all (oracle := busy 2) config algorithm 1 agents2 0 true
             "save" "eval" 0 4 [] in
  environment_steps (value_or init o) = 40%Z
  ∧ (environment_steps (value_or init o) ≤ 40
     < environment_steps (value_or init o) + 10)%Z.
Proof.
  intros init o.
  exact (training_budget (oracle := busy 2) config algorithm 1 agents2 0 true
           "save" "eval" 0 [] (value_or init o) (trace_of o)
           ltac:(simpl; lia) ltac:(simpl; lia)
           ltac:(vm_compute; discriminate) busy_updates).
Defined.

(** With [save_interval] 3 and 4 updates, updates 3 and 4 checkpoint. *)
Lemma checkpoints_of_run_witness :
  let init := {| all_infos := []; environment_steps := 0 |} in
  let o := update_loop_all (oracle := busy 2) config algorithm 1 agents2 0 true
             "save" "eval" 0 4 [] in
  ∃ evs, trace_of o = [] ++ evs
         ∧ length (filter (λ e, is_make_archive e = true) evs) = 2%nat.
Proof.
  intros init o.
  destruct (checkpoints_of_run (oracle := busy 2) config algorithm 1 agents2 0 true
              "save" "eval" 0 4 [] (value_or init o) (trace_of o) busy_updates)
    as (evs & Htr & Hcount).
  exists evs. split; [exact Htr|]. rewrite Hcount. reflexivity.
Defined.

(** With [eval_interval] 3 and 4 updates, updates 3 and 4 evaluate. *)
Lemma evaluations_of_run_witness :
  let init := {| all_infos := []; environment_steps := 0 |} in
  let o := update_loop_all (oracle := busy 2) config algorithm 1 agents2 0 true
             "save" "eval" 0 4 [] in
  ∃ evs, trace_of o = [] ++ evs
         ∧ length (filter (λ e, is_make_vec_envs e = true) evs) = 2%nat.
Proof.
  intros init o.
  destruct (evaluations_of_run (oracle := busy 2) config algorithm 1 agents2 0 true
              "save" "eval" 0 4 [] (value_or init o) (trace_of o) busy_updates)
    as (evs & Htr & Hcount).
  exists evs. split; [exact Htr|]. rewrite Hcount. reflexivity.
Defined.

(** With both intervals at 3 and 4 updates in all: the cycle of update 3
    writes a checkpoint and starts an evaluation, the cycle of update 2
    writes no checkpoint. *)
Lemma stage_cadence_witness :
  let init := {| all_infos := []; environment_steps := 0 |} in
  let cycle := update_cycle (oracle := busy 2) config algorithm 1 agents2 0 true
                 "save" "eval" 0 4 in
  let o := update_loop_all (oracle := busy 2) config algorithm 1 agents2 0 true
             "save" "eval" 0 4 [] in
  (∃ st tr st' evs rest,
     cycle st 3%Z tr = Ok st' (tr ++ evs)
     ∧ trace_of o = tr ++ evs ++ rest
     ∧ (∃ e, e ∈ evs ∧ is_make_archive e = true)
     ∧ (∃ e, e ∈ evs ∧ is_make_vec_envs e = true))
  ∧ (∃ st tr st' evs rest,
       cycle st 2%Z tr = Ok st' (tr ++ evs)
       ∧ trace_of o = tr ++ evs ++ rest
       ∧ ¬ ∃ e, e ∈ evs ∧ is_make_archive e = true).
Proof.
  intros init cycle o. split.
  - destruct (stage_cadence (oracle := busy 2) config algorithm 1 agents2 0 true
                "save" "eval" 0 4 [] (value_or init o) (trace_of o) 3
                busy_updates ltac:(lia))
      as (st & tr & st' & evs & rest & _ & Hcycle & Hend & Hsave & _ & Heval & _).
    exists st, tr, st', evs, rest. split_and!; [exact Hcycle|exact Hend| |].
    + apply (Hsave 3%Z eq_refl). left. reflexivity.
    + apply (Heval 3%Z eq_refl). left. reflexivity.
  - destruct (stage_cadence (oracle := busy 2) config algorithm 1 agents2 0 true
                "save" "eval" 0 4 [] (value_or init o) (trace_of o) 2
                busy_updates ltac:(lia))
      as (st & tr & st' & evs & rest & _ & Hcycle & Hend & Hsave & _).
    exists st, tr, st', evs, rest. split_and!; [exact Hcycle|exact Hend|].
    intros Harchive. apply (Hsave 3%Z eq_refl) in Harchive as [H|H].
    + vm_compute in H. discriminate H.
    + discriminate H.
Defined.

(** The start of a run in the busy world with a loss directory: two
    agents, two observations, both storages seeded, then the clock. *)
Lemma main_seeding_witness :
  let o := main (oracle := busy 2) config algorithm 1 "save" "eval" "loss" [] in
  ∃ rest,
    trace_of o
    = [ CleanupLogDir "loss"; NewSummaryWriter "loss";
        CleanupLogDir "eval"; CleanupLogDir "save"; SetNumThreads 1;
        MakeVecEnvs 5 2 None; NewA2C 0 tt tt; NewA2C 1 tt tt; EnvsReset 5;
        WandbWatch 0; WandbWatch 1;
        StorageSeedObs 0 0%nat; StorageTo 0 "cpu";
        StorageSeedObs 1 0%nat; StorageTo 1 "cpu";
        TimeTime ] ++ rest.
Proof.
  intros o.
  destruct (main_seeding (oracle := busy 2) config algorithm 1 "save" "eval"
              "loss" []) as (_ & _ & Hgoes_on).
  destruct (Hgoes_on ltac:(simpl; lia)) as (rest & Hrest).
  exists rest. exact Hrest.
Defined.


(** The five steps of a rollout of two agents: 0, 1, 0, 1, ... *)
Lemma rollout_round_robin_witness :
  let o := rollout (oracle := busy 2) algorithm agents2 0 [] [] in
  ∃ evs, trace_of o = [] ++ evs
         ∧ omap act_agent evs = [0; 1; 0; 1; 0; 1; 0; 1; 0; 1]%nat
         ∧ omap insert_agent evs = [0; 1; 0; 1; 0; 1; 0; 1; 0; 1]%nat.
Proof.
  intros o.
  exact (rollout_round_robin (oracle := busy 2) algorithm agents2 0 [] []
           (value_or [] o) (trace_of o) busy_rollout).
Defined.

End CoverageRuns.
